(** * Client-side synchronisation layer: prefetching storage and document service

    A shallow embedding of

    - [PrefetchDocumentStorageService] (the prefetching, deduplicating cache
      placed in front of an [IDocumentStorageService]), and
    - [DocumentService] (socket-storage/documentService.ts: [connect],
      [registerForEvent], [handleMessage]),

    together with the properties of both that the specification states.

    JavaScript runs these classes on one thread: a method body runs to
    completion, and asynchronous results arrive later as separate events.
    The embedding follows that: a method is a function on the state of the
    instance, and the settlement of a promise is an event of its own. *)

From Stdlib Require Import ZArith String.
From stdpp Require Import base option list gmap strings.

Local Open Scope string_scope.
Local Open Scope nat_scope.
Local Open Scope list_scope.
Local Open Scope stdpp_scope.

(** ** Part I: PrefetchDocumentStorageService *)

Module Prefetch.

(** [IVersion] of gitresources: an opaque reference to a commit. *)
Record IVersion := { id : string; treeId : string }.

(** [ISnapshotTree]: [blobs] maps a path to a blob id (or [null]), [commits]
    maps a path to the commit id of a nested document, [trees] maps a path to
    a nested tree.  Each object is kept as the list of its entries in the
    order [Object.keys] enumerates them. *)
#[local] Unset Elimination Schemes.
Inductive ISnapshotTree :=
  SnapshotTree (blobs : list (string * option string))
               (commits : list (string * string))
               (trees : list (string * ISnapshotTree)).
#[local] Set Elimination Schemes.

(** Induction over nested trees. *)
Definition ISnapshotTree_nested_ind (P : ISnapshotTree → Prop)
    (step : ∀ blobs commits trees,
        Forall (λ e, P e.2) trees → P (SnapshotTree blobs commits trees)) :
    ∀ t, P t :=
  fix rec (t : ISnapshotTree) : P t :=
    match t with
    | SnapshotTree blobs commits trees =>
        step blobs commits trees
          ((fix all (ts : list (string * ISnapshotTree)) :
              Forall (λ e, P e.2) ts :=
              match ts with
              | [] => @List.Forall_nil _ (λ e, P e.2)
              | e :: ts' => @List.Forall_cons _ (λ e, P e.2) e ts' (rec e.2) (all ts')
              end) trees)
    end.

(** A promise handed out by the wrapped storage service.  Every call on the
    wrapped service returns a new promise; promise [p] is the one returned by
    the [p]-th call. *)
Abbreviation Promise := nat (only parsing).

(** The calls this class makes on the wrapped [IDocumentStorageService]. *)
Inductive StorageCall :=
  | StorageRead (blobId : string)
  | StorageGetSnapshotTree (version : option IVersion)
  | StorageGetVersions (commitId : option string) (count : nat).

(** How a promise of the wrapped service settles. *)
Inductive Settlement :=
  | Rejected (error : string)
  | Blob (content : option string)
  | Tree (tree : option ISnapshotTree)
  | Versions (versions : list IVersion).

Global Instance IVersion_eq_dec : EqDecision IVersion.
Proof. solve_decision. Defined.
Global Instance StorageCall_eq_dec : EqDecision StorageCall.
Proof. solve_decision. Defined.

(** The instance: its two private fields, and the wrapped storage as seen
    from this class ([storage]: the calls made so far; [settled]: the
    promises that have settled; [callbacks]: the promises on which this class
    has registered a [then] callback). *)
Record Service := {
  prefetchEnabled : bool;
  prefetchCache : gmap string Promise;
  storage : list StorageCall;
  settled : gmap Promise Settlement;
  callbacks : list Promise;
}.

(** [new PrefetchDocumentStorageService(storage)] *)
Definition init : Service :=
  {| prefetchEnabled := true; prefetchCache := ∅; storage := [];
     settled := ∅; callbacks := [] |}.

(** A call on the wrapped service: logged, answered with a new promise. *)
Definition storageCall (c : StorageCall) (st : Service) : Promise * Service :=
  (length (storage st),
   {| prefetchEnabled := prefetchEnabled st;
      prefetchCache := prefetchCache st;
      storage := storage st ++ [c];
      settled := settled st;
      callbacks := callbacks st |}).

(** [this.prefetchCache.set(blobId, p)] *)
Definition cacheSet (blobId : string) (p : Promise) (st : Service) : Service :=
  {| prefetchEnabled := prefetchEnabled st;
     prefetchCache := <[blobId := p]> (prefetchCache st);
     storage := storage st;
     settled := settled st;
     callbacks := callbacks st |}.

(** [p.then(...)] registered by this class. *)
Definition onSettled (p : Promise) (st : Service) : Service :=
  {| prefetchEnabled := prefetchEnabled st;
     prefetchCache := prefetchCache st;
     storage := storage st;
     settled := settled st;
     callbacks := callbacks st ++ [p] |}.

(** [stopPrefetch()] *)
Definition stopPrefetch (st : Service) : Service :=
  {| prefetchEnabled := false;
     prefetchCache := ∅;
     storage := storage st;
     settled := settled st;
     callbacks := callbacks st |}.

(** [cachedRead(blobId)].  A promise is an object, so the test
    [if (prefetchedBlobP)] succeeds exactly when the key is in the map. *)
Definition cachedRead (blobId : string) (st : Service) : Promise * Service :=
  if prefetchEnabled st then
    match prefetchCache st !! blobId with
    | Some prefetchedBlobP => (prefetchedBlobP, st)
    | None =>
        let '(prefetchedBlobPFromStorage, st1) :=
          storageCall (StorageRead blobId) st in
        (prefetchedBlobPFromStorage,
         cacheSet blobId prefetchedBlobPFromStorage st1)
    end
  else storageCall (StorageRead blobId) st.

(** [read(blobId)]: an [async] wrapper around [cachedRead]; the promise it
    returns adopts the promise of [cachedRead], with which it is identified. *)
Definition read (blobId : string) (st : Service) : Promise * Service :=
  cachedRead blobId st.

(** [getVersions(commitId, count)] *)
Definition getVersions (commitId : option string) (count : nat) (st : Service)
    : Promise * Service :=
  storageCall (StorageGetVersions commitId count) st.

(** [getSnapshotTree(version)].  The wrapped service returns a promise, so
    [p && this.prefetchEnabled] is decided by the flag. *)
Definition getSnapshotTree (version : option IVersion) (st : Service)
    : Promise * Service :=
  let '(p, st1) := storageCall (StorageGetSnapshotTree version) st in
  if prefetchEnabled st1 then (p, onSettled p st1) else (p, st1).

(** [blobKey[0]]: the first character as a string, [undefined] on the empty
    string. *)
Definition charAt0 (s : string) : option string :=
  match s with
  | EmptyString => None
  | String c _ => Some (String c EmptyString)
  end.

(** [s.indexOf(needle)], with [None] for [-1]. *)
Definition indexOf (needle s : string) : option nat := index 0 needle s.

(** The first test of the loop over [tree.blobs]. *)
Definition isEager (blobKey : string) : bool :=
  bool_decide (charAt0 blobKey = Some ".")
  || bool_decide (blobKey = "header")
  || bool_decide (indexOf "quorum" blobKey = Some 0).

(** The second test: [blobKey[0] !== "deltas"]. *)
Definition notDeltas (blobKey : string) : bool :=
  bool_decide (charAt0 blobKey ≠ Some "deltas").

(** The body of the loop over [Object.keys(tree.blobs)]; [secondary] is the
    array shared by the whole walk. *)
Definition classify (acc : list string * Service)
    (entry : string * option string) : list string * Service :=
  let '(secondary, st) := acc in
  let '(blobKey, blob) := entry in
  if isEager blobKey then
    match blob with
    | Some b => (secondary, (cachedRead b st).2)
    | None => (secondary, st)
    end
  else if notDeltas blobKey then
    match blob with
    | Some b => (secondary ++ [b], st)
    | None => (secondary, st)
    end
  else (secondary, st).

(** The body of the loop over [Object.keys(tree.commits)]: the call of
    [getVersions(commitId, 1)] and the [then] registered on its result. *)
Definition prefetchCommit (st : Service) (entry : string * string) : Service :=
  let '(p, st1) := getVersions (Some entry.2) 1 st in
  onSettled p st1.

(** [prefetchTreeCore(tree, secondary)] *)
Fixpoint prefetchTreeCore (tree : ISnapshotTree) (acc : list string * Service)
    : list string * Service :=
  match tree with
  | SnapshotTree blobs commits trees =>
      let acc1 := foldl classify acc blobs in
      let acc2 := (acc1.1, foldl prefetchCommit acc1.2 commits) in
      (fix subTrees (ts : list (string * ISnapshotTree))
           (a : list string * Service) : list string * Service :=
         match ts with
         | [] => a
         | e :: ts' => subTrees ts' (prefetchTreeCore e.2 a)
         end) trees acc2
  end.

(** [prefetchTree(tree)] *)
Definition prefetchTree (tree : ISnapshotTree) (st : Service) : Service :=
  let '(secondary, st1) := prefetchTreeCore tree ([], st) in
  foldl (λ s blob, (cachedRead blob s).2) st1 secondary.

(** What this class does when promise [p] of the wrapped service settles:
    the callback of [getSnapshotTree] walks a tree that is present, the
    callback of [prefetchTreeCore] asks for the tree of [moduleCommit[0]];
    a rejection is ignored (the first has no handler, the second logs it). *)
Definition settle (p : Promise) (s : Settlement) (st : Service) : Service :=
  match storage st !! p, settled st !! p with
  | Some call, None =>
      let st1 :=
        {| prefetchEnabled := prefetchEnabled st;
           prefetchCache := prefetchCache st;
           storage := storage st;
           settled := <[p := s]> (settled st);
           callbacks := callbacks st |} in
      if bool_decide (p ∈ callbacks st) then
        match call, s with
        | StorageGetSnapshotTree _, Tree (Some tree) => prefetchTree tree st1
        | StorageGetVersions _ _, Versions moduleCommit =>
            (getSnapshotTree (head moduleCommit) st1).2
        | _, _ => st1
        end
      else st1
  | _, _ => st
  end.

(** What can happen to an instance: a call of a public method, or the
    settlement of a promise of the wrapped service. *)
Inductive Event :=
  | CallRead (blobId : string)
  | CallGetSnapshotTree (version : option IVersion)
  | CallGetVersions (commitId : option string) (count : nat)
  | CallStopPrefetch
  | Settle (p : Promise) (s : Settlement).

Definition step (st : Service) (ev : Event) : Service :=
  match ev with
  | CallRead blobId => (read blobId st).2
  | CallGetSnapshotTree version => (getSnapshotTree version st).2
  | CallGetVersions commitId count => (getVersions commitId count st).2
  | CallStopPrefetch => stopPrefetch st
  | Settle p s => settle p s st
  end.

Definition run (st : Service) (evs : list Event) : Service := foldl step st evs.

(** The number of [storage.read(blobId)] calls made so far. *)
Definition storageReads (blobId : string) (st : Service) : nat :=
  length (filter (λ c, c = StorageRead blobId) (storage st)).

(** [n] calls of [read(blobId)] in a row, none awaited: the promises they
    return, first call first. *)
Fixpoint reads (n : nat) (blobId : string) (st : Service)
    : list Promise * Service :=
  match n with
  | 0 => ([], st)
  | S n' =>
      let '(p, st1) := read blobId st in
      let '(ps, st2) := reads n' blobId st1 in
      (p :: ps, st2)
  end.

(** The tree of the eager-versus-secondary example. *)
Definition exampleTree (b1 b2 b3 b4 : string) : ISnapshotTree :=
  SnapshotTree
    [(".attr", Some b1); ("header", Some b2); ("quorumMembers", Some b3);
     ("content.txt", Some b4)] [] [].

(** What holds of every instance, whatever has happened to it: a cached
    promise is the promise of a read of its key; while prefetching is
    enabled a blob has been read from the wrapped service once if it is
    cached and never otherwise; a disabled instance has an empty cache;
    callbacks sit on promises that were handed out, and only those settle. *)
Record consistent (st : Service) : Prop := {
  cache_is_read : ∀ B p,
    prefetchCache st !! B = Some p → storage st !! p = Some (StorageRead B);
  reads_counted : prefetchEnabled st = true → ∀ B,
    storageReads B st = match prefetchCache st !! B with Some _ => 1 | None => 0 end;
  disabled_empty : prefetchEnabled st = false → prefetchCache st = ∅;
  callbacks_issued : ∀ p, p ∈ callbacks st → p < length (storage st);
  settled_issued : ∀ p s,
    settled st !! p = Some s → p < length (storage st);
}.

(** **** The walk, flattened *)

(** What a walk does while it classifies: it reads a blob through the
    cache, or asks for the versions of a nested commit. *)
Inductive WalkStep :=
  | ReadBlob (blob : string)
  | RequestVersions (entry : string * string).

Definition walkStep (st : Service) (a : WalkStep) : Service :=
  match a with
  | ReadBlob blob => (cachedRead blob st).2
  | RequestVersions entry => prefetchCommit st entry
  end.

(** The blobs of one level that are present, eager ones and the others. *)
Definition eagerBlobs (blobs : list (string * option string)) : list string :=
  omap (λ e, if isEager e.1 then e.2 else None) blobs.

Definition otherBlobs (blobs : list (string * option string)) : list string :=
  omap (λ e, if isEager e.1 then None else e.2) blobs.

(** The steps of a walk in depth-first order: at each level the eager
    blobs, then the nested commits, then the nested trees. *)
Fixpoint walkSteps (tree : ISnapshotTree) : list WalkStep :=
  match tree with
  | SnapshotTree blobs commits trees =>
      (ReadBlob <$> eagerBlobs blobs) ++ (RequestVersions <$> commits)
      ++ (fix subTrees (ts : list (string * ISnapshotTree)) : list WalkStep :=
            match ts with
            | [] => []
            | e :: ts' => walkSteps e.2 ++ subTrees ts'
            end) trees
  end.

(** The blobs of a tree that are present and not eager, in depth-first
    order. *)
Fixpoint secondaryBlobs (tree : ISnapshotTree) : list string :=
  match tree with
  | SnapshotTree blobs commits trees =>
      otherBlobs blobs
      ++ (fix subTrees (ts : list (string * ISnapshotTree)) : list string :=
            match ts with
            | [] => []
            | e :: ts' => secondaryBlobs e.2 ++ subTrees ts'
            end) trees
  end.

(** Every blob id a tree holds, at any depth. *)
Fixpoint blobsOf (tree : ISnapshotTree) : list string :=
  match tree with
  | SnapshotTree blobs commits trees =>
      omap snd blobs
      ++ (fix subTrees (ts : list (string * ISnapshotTree)) : list string :=
            match ts with
            | [] => []
            | e :: ts' => blobsOf e.2 ++ subTrees ts'
            end) trees
  end.

(** The call on the wrapped service behind a step of a walk that finds
    nothing in the cache. *)
Definition stepCall (a : WalkStep) : StorageCall :=
  match a with
  | ReadBlob blob => StorageRead blob
  | RequestVersions entry => StorageGetVersions (Some entry.2) 1
  end.

Definition walkCalls (tree : ISnapshotTree) : list StorageCall :=
  (stepCall <$> walkSteps tree) ++ (StorageRead <$> secondaryBlobs tree).

(** The mark [settle] leaves on a promise. *)
Definition markSettled (p : Promise) (s : Settlement) (st : Service) : Service :=
  {| prefetchEnabled := prefetchEnabled st;
     prefetchCache := prefetchCache st;
     storage := storage st;
     settled := <[p := s]> (settled st);
     callbacks := callbacks st |}.

(** A tree with a blob named ["deltas"], a nested commit and a nested tree. *)
Definition nestedTree : ISnapshotTree :=
  SnapshotTree [("deltas", Some "d1"); (".attributes", Some "a1")]
    [("module", "c1")]
    [("channel", SnapshotTree [("header", Some "h1"); ("body", None)] [] [])].

End Prefetch.

(** ** Part II: DocumentService (socket-storage/documentService.ts) *)

(** *** Plain JavaScript objects used as maps

    [ConnectionMap], [ObjectMap] and [EventMap] are object literals indexed
    by strings.  An object is kept as the list of its own properties in the
    order they were created, which is the order [for ... in] and
    [Object.keys] visit keys that are not array indices; keys are taken not
    to be names inherited from [Object.prototype]. *)

Module JsObject.
Section Object.
Context {V : Type}.

(** [o[k]], with [None] for [undefined]. *)
Fixpoint get (o : list (string * V)) (k : string) : option V :=
  match o with
  | [] => None
  | (k', v) :: o' => if decide (k = k') then Some v else get o' k
  end.

(** [k in o] *)
Definition has (o : list (string * V)) (k : string) : bool :=
  match get o k with Some _ => true | None => false end.

(** [o[k] = v]: an existing property keeps its place, a new one goes last. *)
Fixpoint set (o : list (string * V)) (k : string) (v : V)
    : list (string * V) :=
  match o with
  | [] => [(k, v)]
  | (k', v') :: o' =>
      if decide (k = k') then (k', v) :: o' else (k', v') :: set o' k v
  end.

(** The keys a [for ... in] loop visits. *)
Definition keys (o : list (string * V)) : list string := map fst o.

End Object.
End JsObject.

(** *** Message payloads: JSON data in the JavaScript heap

    A payload is a primitive or a reference to an object or array; objects
    live in the heap and can be mutated in place, which is what makes a copy
    different from an alias. *)

Module Json.

Inductive value :=
  | Null
  | Bool (b : bool)
  | Number (n : Z)
  | Str (s : string)
  | Ref (l : nat).

Record object := { isArray : bool; props : list (string * value) }.

(** The heap: location [l] holds the [l]-th object allocated. *)
Abbreviation heap := (list object).

(** The data a value stands for, as [JSON.stringify] would print it. *)
#[local] Unset Elimination Schemes.
Inductive data :=
  | DNull
  | DBool (b : bool)
  | DNumber (n : Z)
  | DStr (s : string)
  | DObject (array : bool) (fields : list (string * data)).
#[local] Set Elimination Schemes.

(** Reading a value down to depth [fuel]. *)
Fixpoint snapshot (fuel : nat) (h : heap) (v : value) : option data :=
  match fuel with
  | 0 => None
  | S fuel' =>
      match v with
      | Null => Some DNull
      | Bool b => Some (DBool b)
      | Number n => Some (DNumber n)
      | Str s => Some (DStr s)
      | Ref l =>
          o ← h !! l;
          fields ← mapM (λ kv, pair kv.1 <$> snapshot fuel' h kv.2) (props o);
          Some (DObject (isArray o) fields)
      end
  end.

(** Copying the properties of an object, one after the other. *)
Fixpoint cloneProps (clone : value → heap → option (value * heap))
    (ps : list (string * value)) (h : heap)
    : option (list (string * value) * heap) :=
  match ps with
  | [] => Some ([], h)
  | (k, v) :: ps' =>
      '(v', h1) ← clone v h;
      '(ps'', h2) ← cloneProps clone ps' h1;
      Some ((k, v') :: ps'', h2)
  end.

(** Lodash's [_.cloneDeep] on JSON data, which has neither sharing nor
    cycles: a primitive is returned as it is; for an object or array a new
    one is allocated whose properties are the deep copies of the properties
    of the original.  [fuel] bounds the depth of the data. *)
Fixpoint cloneDeep (fuel : nat) (v : value) (h : heap)
    : option (value * heap) :=
  match fuel with
  | 0 => None
  | S fuel' =>
      match v with
      | Ref l =>
          o ← h !! l;
          '(ps, h1) ← cloneProps (cloneDeep fuel') (props o) h;
          Some (Ref (length h1),
                h1 ++ [{| isArray := isArray o; props := ps |}])
      | _ => Some (v, h)
      end
  end.

(** The locations a value leads to. *)
Inductive reach (h : heap) : value → nat → Prop :=
  | reach_here l : reach h (Ref l) l
  | reach_field l o k w l' :
      h !! l = Some o → (k, w) ∈ props o → reach h w l' → reach h (Ref l) l'.

(** A value that lives in the locations [lo ≤ l < hi]. *)
Definition within (lo hi : nat) (v : value) : Prop :=
  match v with
  | Ref l => lo ≤ l < hi
  | _ => True
  end.

(** The objects at [lo ≤ l < hi] refer to no location outside. *)
Definition closed (h : heap) (lo hi : nat) : Prop :=
  ∀ l o, lo ≤ l < hi → h !! l = Some o → Forall (λ kv, within lo hi kv.2) (props o).

(** What a deep copy made in heap [h] of data [t] is: the old heap is
    still there, and the copy lives in new locations that refer only to one
    another and read as [t]. *)
Definition copyOf (n : nat) (h : heap) (t : data) (r : value * heap) : Prop :=
  h `prefix_of` r.2
  ∧ within (length h) (length r.2) r.1
  ∧ closed r.2 (length h) (length r.2)
  ∧ snapshot n r.2 r.1 = Some t.

End Json.

Module DocumentService.
Import JsObject Json.

(** **** Routing of events *)

(** [DocumentDeltaConnection], as its constructor is called in [connect]. *)
Module DeltaConnection.
Record DocumentDeltaConnection := {
  documentId : string;
  clientId : string;
  encrypted : bool;
  privateKey : string;
  publicKey : string;
}.
End DeltaConnection.
Export DeltaConnection (DocumentDeltaConnection).

(** The instance as far as routing goes: [eventMap], and the events for
    which [socket.on] has been called, in the order of the calls. *)
Record Service := {
  eventMap : list (string * list (string * list (string * DocumentDeltaConnection)));
  listeners : list string;
}.

(** [new DocumentService(...)] *)
Definition init : Service := {| eventMap := []; listeners := [] |}.

(** [registerForEvent(event, connection)] *)
Definition registerForEvent (event : string)
    (connection : DocumentDeltaConnection) (st : Service) : Service :=
  let st1 :=
    if has (eventMap st) event then st
    else {| eventMap := set (eventMap st) event [];
            listeners := listeners st ++ [event] |} in
  let objectMap := default [] (get (eventMap st1) event) in
  let documentId := DeltaConnection.documentId connection in
  let clientId := DeltaConnection.clientId connection in
  let objectMap1 :=
    if has objectMap documentId then objectMap
    else set objectMap documentId [] in
  let connectionMap := default [] (get objectMap1 documentId) in
  {| eventMap :=
       set (eventMap st1) event
         (set objectMap1 documentId (set connectionMap clientId connection));
     listeners := listeners st1 |}.

(** [this.eventMap[event][documentId][clientId]] *)
Definition subscriber (st : Service) (event documentId clientId : string)
    : option DocumentDeltaConnection :=
  objectMap ← get (eventMap st) event;
  connectionMap ← get objectMap documentId;
  get connectionMap clientId.

(** A run of registrations. *)
Definition registerAll (st : Service)
    (regs : list (string * DocumentDeltaConnection)) : Service :=
  foldl (λ s r, registerForEvent r.1 r.2 s) st regs.

(** The number of [socket.on(event, ...)] calls made so far. *)
Definition installed (event : string) (st : Service) : nat :=
  length (filter (λ e, e = event) (listeners st)).

(** The specification's routing table after a run of registrations: a
    triple maps to the connection of the most recent registration for it. *)
Definition mostRecent (regs : list (string * DocumentDeltaConnection))
    (event documentId clientId : string) : option DocumentDeltaConnection :=
  foldl (λ found r,
           if decide (r.1 = event
                      ∧ DeltaConnection.documentId r.2 = documentId
                      ∧ DeltaConnection.clientId r.2 = clientId)
           then Some r.2 else found) None regs.

(** The connections registered for an event and a document, in the order
    [handleMessage] visits them. *)
Definition registeredFor (st : Service) (event documentId : string)
    : list (string * DocumentDeltaConnection) :=
  default [] (objectMap ← get (eventMap st) event; get objectMap documentId).

(** One call of [connection.dispatchEvent(event, clone)]: the connection,
    the arguments, and the heap the handler was started in. *)
Record Delivery := {
  target : DocumentDeltaConnection;
  eventName : string;
  payload : value;
  heapAtCall : heap;
}.

(** [dispatchEvent] is a method of [DocumentDeltaConnection]; from here it
    is a parameter, a function from the heap in which the handlers of the
    connection start to the heap in which they return. *)
Abbreviation Dispatch :=
  (DocumentDeltaConnection → string → value → heap → heap).

(** The heap in which the handler of a delivery returned. *)
Definition heapAtReturn (dispatchEvent : Dispatch) (d : Delivery) : heap :=
  dispatchEvent (target d) (eventName d) (payload d) (heapAtCall d).

(** A handler that works on what it is given: it may change the objects
    its payload leads to and allocate new ones, and leaves every other
    object as it is. *)
Definition confined (dispatchEvent : Dispatch) : Prop :=
  ∀ connection event v h,
    length h ≤ length (dispatchEvent connection event v h)
    ∧ ∀ l, l < length h → ¬ reach h v l →
           dispatchEvent connection event v h !! l = h !! l.

(** The loop of [handleMessage] over the keys of [connectionMap]. *)
Fixpoint routeToClients (dispatchEvent : Dispatch) (fuel : nat)
    (event : string)
    (connectionMap : list (string * DocumentDeltaConnection))
    (clientIds : list string) (message : value) (h : heap)
    : option (list Delivery * heap) :=
  match clientIds with
  | [] => Some ([], h)
  | clientId :: rest =>
      match get connectionMap clientId with
      | Some connection =>
          '(clone, h1) ← cloneDeep fuel message h;
          '(ds, h2) ← routeToClients dispatchEvent fuel event connectionMap
                        rest message (dispatchEvent connection event clone h1);
          Some ({| target := connection; eventName := event;
                   payload := clone; heapAtCall := h1 |} :: ds, h2)
      | None =>
          routeToClients dispatchEvent fuel event connectionMap rest message h
      end
  end.

(** [handleMessage(event, documentId, message)]: the calls of
    [dispatchEvent] made, in order, and the heap afterwards. *)
Definition handleMessage (dispatchEvent : Dispatch) (fuel : nat)
    (st : Service) (event documentId : string) (message : value) (h : heap)
    : option (list Delivery * heap) :=
  match get (eventMap st) event with
  | None => Some ([], h)
  | Some objectMap =>
      match get objectMap documentId with
      | None => Some ([], h)
      | Some connectionMap =>
          routeToClients dispatchEvent fuel event connectionMap
            (keys connectionMap) message h
      end
  end.

(** What the loop of [handleMessage] guarantees for one delivery [d], when
    the loop started in heap [h] and ended in heap [h']. *)
Definition delivered (dispatchEvent : Dispatch) (n : nat) (event : string)
    (t : data) (h h' : heap) (d : Delivery) : Prop :=
  eventName d = event
  ∧ snapshot n (heapAtCall d) (payload d) = Some t
  ∧ (∀ l, reach (heapAtCall d) (payload d) l →
          length h ≤ l < length (heapAtCall d))
  ∧ length (heapAtCall d) ≤ length (heapAtReturn dispatchEvent d)
  ∧ (∀ l, l < length (heapAtReturn dispatchEvent d) →
          h' !! l = heapAtReturn dispatchEvent d !! l).

(** Every delivery is made of objects that did not exist yet when the
    handlers of the deliveries before it returned. *)
Fixpoint inOrder (dispatchEvent : Dispatch) (ds : list Delivery) : Prop :=
  match ds with
  | [] => True
  | d :: ds' =>
      Forall (λ d', ∀ l, reach (heapAtCall d') (payload d') l →
                         length (heapAtReturn dispatchEvent d) ≤ l) ds'
      ∧ inOrder dispatchEvent ds'
  end.

(** A handler that overwrites the object it is given with a note of who
    has seen it. *)
Definition scribble : Dispatch :=
  λ connection event v h,
    match v with
    | Ref l =>
        <[l := {| isArray := false;
                  props := [("seenBy",
                             Str (DeltaConnection.clientId connection))] |}]> h
    | _ => h
    end.

(** **** Connecting to a document *)

(** [resources.ICommit]: an opaque reference to a version. *)
Record ICommit := { sha : string }.

(** Descriptors of distributed objects and sequenced messages are passed
    through [connect] unchanged and never inspected. *)
Abbreviation IDistributedObject := string (only parsing).
Abbreviation ISequencedDocumentMessage := string (only parsing).

(** [api.IDocumentHeader] *)
Module Header.
Record IDocumentAttributes := {
  minimumSequenceNumber : Z;
  sequenceNumber : Z;
}.
Record IDocumentHeader := {
  attributes : IDocumentAttributes;
  distributedObjects : list IDistributedObject;
  transformedMessages : list ISequencedDocumentMessage;
  tree : option Prefetch.ISnapshotTree;
}.
End Header.
Export Header (IDocumentAttributes, IDocumentHeader).

Definition emptyHeader : IDocumentHeader :=
  {| Header.attributes :=
       {| Header.minimumSequenceNumber := 0; Header.sequenceNumber := 0 |};
     Header.distributedObjects := [];
     Header.transformedMessages := [];
     Header.tree := None |}.

(** [messages.IConnect], sent with ["connectDocument"]. *)
Module Connect.
Record IConnect := {
  id : string;
  privateKey : string;
  publicKey : string;
  encrypted : bool;
}.
End Connect.
Export Connect (IConnect).

(** [messages.IConnected], the acknowledgement. *)
Module Connected.
Record IConnected := {
  clientId : string;
  existing : bool;
  privateKey : string;
  publicKey : string;
}.
End Connected.
Export Connected (IConnected).

(** [class Document]; the two storage services are kept as the arguments
    their constructors were given. *)
Record Document := {
  documentId : string;
  clientId : string;
  existing : bool;
  version : option ICommit;
  deltaConnection : DocumentDeltaConnection;
  documentStorageService : string * option ICommit;
  deltaStorageService : string;
  distributedObjects : list IDistributedObject;
  pendingDeltas : list ISequencedDocumentMessage;
  transformedMessages : list ISequencedDocumentMessage;
  sequenceNumber : Z;
  minimumSequenceNumber : Z;
  tree : option Prefetch.ISnapshotTree;
}.

(** A promise: pending, resolved with a value, or rejected with an error. *)
Inductive PromiseState (A : Type) :=
  | Pending
  | Resolved (value : A)
  | Rejected (error : string).
Arguments Pending {A}.
Arguments Resolved {A} value.
Arguments Rejected {A} error.

(** How an asynchronous request ends. *)
Inductive Outcome (A : Type) :=
  | Ok (value : A)
  | Err (error : string).
Arguments Ok {A} value.
Arguments Err {A} error.

(** What [connect] asks of its collaborators. *)
Inductive ExternalCall :=
  | GenerateAsymmetricKeys (bits : Z) (passphrase : string) (id : string)
  | GetHeader (id : string) (version : ICommit)
  | EmitConnectDocument (connectMessage : IConnect)
  | DeltaStorageGet (id : string) (from : Z).

(** Where an invocation stands with respect to its first [await]. *)
Inductive Phase :=
  | AwaitingKeys
  | Started
  | KeysFailed.

(** One invocation of [connect]: its arguments, its three promises, the
    promise it returned ([result]), and the calls made so far. *)
Record Invocation := {
  argId : string;
  argVersion : option ICommit;
  argEncrypted : bool;
  phase : Phase;
  headerP : PromiseState (option IDocumentHeader);
  connectionP : PromiseState IConnected;
  pendingDeltasP : PromiseState (list ISequencedDocumentMessage);
  result : PromiseState Document;
  calls : list ExternalCall;
}.

Definition withPhase (ph : Phase) (st : Invocation) : Invocation :=
  {| argId := argId st; argVersion := argVersion st;
     argEncrypted := argEncrypted st; phase := ph;
     headerP := headerP st; connectionP := connectionP st;
     pendingDeltasP := pendingDeltasP st; result := result st;
     calls := calls st |}.

Definition withHeaderP (p : PromiseState (option IDocumentHeader))
    (st : Invocation) : Invocation :=
  {| argId := argId st; argVersion := argVersion st;
     argEncrypted := argEncrypted st; phase := phase st;
     headerP := p; connectionP := connectionP st;
     pendingDeltasP := pendingDeltasP st; result := result st;
     calls := calls st |}.

Definition withConnectionP (p : PromiseState IConnected)
    (st : Invocation) : Invocation :=
  {| argId := argId st; argVersion := argVersion st;
     argEncrypted := argEncrypted st; phase := phase st;
     headerP := headerP st; connectionP := p;
     pendingDeltasP := pendingDeltasP st; result := result st;
     calls := calls st |}.

Definition withPendingDeltasP
    (p : PromiseState (list ISequencedDocumentMessage))
    (st : Invocation) : Invocation :=
  {| argId := argId st; argVersion := argVersion st;
     argEncrypted := argEncrypted st; phase := phase st;
     headerP := headerP st; connectionP := connectionP st;
     pendingDeltasP := p; result := result st;
     calls := calls st |}.

Definition withResult (p : PromiseState Document) (st : Invocation)
    : Invocation :=
  {| argId := argId st; argVersion := argVersion st;
     argEncrypted := argEncrypted st; phase := phase st;
     headerP := headerP st; connectionP := connectionP st;
     pendingDeltasP := pendingDeltasP st; result := p;
     calls := calls st |}.

Definition call (c : ExternalCall) (st : Invocation) : Invocation :=
  {| argId := argId st; argVersion := argVersion st;
     argEncrypted := argEncrypted st; phase := phase st;
     headerP := headerP st; connectionP := connectionP st;
     pendingDeltasP := pendingDeltasP st; result := result st;
     calls := calls st ++ [c] |}.

(** The code after [await Promise.all(...)].  Reading a property of a
    header that is [null] throws, which rejects the promise of [connect]. *)
Definition assemble (st : Invocation) (header : option IDocumentHeader)
    (connection : IConnected)
    (pendingDeltas : list ISequencedDocumentMessage)
    : PromiseState Document :=
  match header with
  | None => Rejected "TypeError"
  | Some header =>
      Resolved
        {| documentId := argId st;
           clientId := Connected.clientId connection;
           existing := Connected.existing connection;
           version := argVersion st;
           deltaConnection :=
             {| DeltaConnection.documentId := argId st;
                DeltaConnection.clientId := Connected.clientId connection;
                DeltaConnection.encrypted := argEncrypted st;
                DeltaConnection.privateKey := Connected.privateKey connection;
                DeltaConnection.publicKey := Connected.publicKey connection |};
           documentStorageService := (argId st, argVersion st);
           deltaStorageService := argId st;
           distributedObjects := Header.distributedObjects header;
           pendingDeltas := pendingDeltas;
           transformedMessages := Header.transformedMessages header;
           sequenceNumber := Header.sequenceNumber (Header.attributes header);
           minimumSequenceNumber :=
             Header.minimumSequenceNumber (Header.attributes header);
           tree := Header.tree header |}
  end.

(** [Promise.all([headerP, connectionP, pendingDeltasP])] followed by the
    rest of [connect]: resolved once all three are, rejected with the error
    of the first of them that is rejected. *)
Definition allResolved (st : Invocation) : Invocation :=
  match result st, headerP st, connectionP st, pendingDeltasP st with
  | Pending, Resolved header, Resolved connection, Resolved pendingDeltas =>
      withResult (assemble st header connection pendingDeltas) st
  | _, _, _, _ => st
  end.

Definition oneRejected (error : string) (st : Invocation) : Invocation :=
  match result st with
  | Pending => withResult (Rejected error) st
  | _ => st
  end.

(** The callback of [headerP.then(...)]. *)
Definition requestPendingDeltas (header : option IDocumentHeader)
    (st : Invocation) : Invocation :=
  call (DeltaStorageGet (argId st)
          (match header with
           | Some header => Header.sequenceNumber (Header.attributes header)
           | None => 0%Z
           end)) st.

(** [connect] from [connectMessage] on, up to [await Promise.all(...)]. *)
Definition start (privateKey publicKey : string) (st : Invocation)
    : Invocation :=
  let connectMessage :=
    {| Connect.id := argId st; Connect.privateKey := privateKey;
       Connect.publicKey := publicKey;
       Connect.encrypted := argEncrypted st |} in
  let st1 :=
    match argVersion st with
    | Some version =>
        withHeaderP Pending (call (GetHeader (argId st) version) st)
    | None => withHeaderP (Resolved (Some emptyHeader)) st
    end in
  let st2 := call (EmitConnectDocument connectMessage) st1 in
  match headerP st2 with
  | Resolved header => requestPendingDeltas header st2
  | _ => st2
  end.

(** [connect(id, version, connect, encrypted)] up to its first suspension. *)
Definition connect (id : string) (version : option ICommit) (connect : bool)
    (encrypted : bool) : Invocation :=
  let st :=
    {| argId := id; argVersion := version; argEncrypted := encrypted;
       phase := Started; headerP := Pending; connectionP := Pending;
       pendingDeltasP := Pending; result := Pending; calls := [] |} in
  if encrypted then
    withPhase AwaitingKeys (call (GenerateAsymmetricKeys 2048 "" id) st)
  else start "" "" st.

(** What an invocation waits for. *)
Inductive ConnectEvent :=
  | KeysSettled (keys : Outcome (string * string))
  | HeaderSettled (header : Outcome (option IDocumentHeader))
  | ConnectAck (error : option string) (response : IConnected)
  | DeltasSettled (deltas : Outcome (list ISequencedDocumentMessage)).

(** The deltas have been requested and not yet answered. *)
Definition deltasOutstanding (st : Invocation) : bool :=
  match headerP st, pendingDeltasP st with
  | Resolved _, Pending => true
  | _, _ => false
  end.

(** The key pair arrives, or its generation fails. *)
Definition keysSettled (keys : Outcome (string * string)) (st : Invocation)
    : Invocation :=
  match keys with
  | Ok (privateKey, publicKey) =>
      start privateKey publicKey (withPhase Started st)
  | Err error => withResult (Rejected error) (withPhase KeysFailed st)
  end.

(** [getHeader] answers.  A header makes the callback of [headerP.then]
    run; an error rejects [headerP], which [Promise.all] sees first, and
    then [pendingDeltasP], which was derived from it. *)
Definition headerSettled (outcome : Outcome (option IDocumentHeader))
    (st : Invocation) : Invocation :=
  match headerP st, outcome with
  | Pending, Ok header =>
      requestPendingDeltas header (withHeaderP (Resolved header) st)
  | Pending, Err error =>
      withPendingDeltasP (Rejected error)
        (oneRejected error (withHeaderP (Rejected error) st))
  | _, _ => st
  end.

(** The acknowledgement callback of ["connectDocument"]: [error] is
    [Some] when the first argument is truthy. *)
Definition connectAck (error : option string) (response : IConnected)
    (st : Invocation) : Invocation :=
  match connectionP st, error with
  | Pending, Some error =>
      oneRejected error (withConnectionP (Rejected error) st)
  | Pending, None => allResolved (withConnectionP (Resolved response) st)
  | _, _ => st
  end.

(** [deltaStorage.get] answers. *)
Definition deltasSettled
    (outcome : Outcome (list ISequencedDocumentMessage)) (st : Invocation)
    : Invocation :=
  if deltasOutstanding st then
    match outcome with
    | Ok deltas => allResolved (withPendingDeltasP (Resolved deltas) st)
    | Err error => oneRejected error (withPendingDeltasP (Rejected error) st)
    end
  else st.

(** An event reaches an invocation only if it is waiting for it. *)
Definition connectStep (st : Invocation) (ev : ConnectEvent) : Invocation :=
  match phase st, ev with
  | AwaitingKeys, KeysSettled keys => keysSettled keys st
  | Started, HeaderSettled outcome => headerSettled outcome st
  | Started, ConnectAck error response => connectAck error response st
  | Started, DeltasSettled outcome => deltasSettled outcome st
  | _, _ => st
  end.

Definition connectRun (st : Invocation) (evs : list ConnectEvent)
    : Invocation :=
  foldl connectStep st evs.

(** What holds of every invocation whose handshake is still under way:
    before the keys exist nothing has settled; afterwards [connect] has not
    returned a document, and it has failed exactly when the header or the
    pending deltas have, with the error of the first of them to fail. *)
Record handshakePending (st : Invocation) : Prop := {
  before_start :
    phase st = AwaitingKeys →
    result st = Pending ∧ headerP st = Pending
    ∧ connectionP st = Pending ∧ pendingDeltasP st = Pending;
  while_pending :
    phase st = Started → connectionP st = Pending →
    (result st = Pending
     ∧ (∀ e, headerP st ≠ Rejected e)
     ∧ (∀ e, pendingDeltasP st ≠ Rejected e))
    ∨ (∃ e, result st = Rejected e
            ∧ (headerP st = Rejected e ∨ pendingDeltasP st = Rejected e));
  deltas_after_header : headerP st = Pending → pendingDeltasP st = Pending;
}.

(** What holds of every invocation of [connect] without a version. *)
Record defaultHeader (id : string) (st : Invocation) : Prop := {
  default_args : argId st = id ∧ argVersion st = None;
  default_no_getHeader : ∀ i v, GetHeader i v ∉ calls st;
  default_from_zero :
    ∀ i from, DeltaStorageGet i from ∈ calls st → i = id ∧ from = 0%Z;
  default_waiting :
    phase st ≠ Started →
    result st = Pending ∨ ∃ e, result st = Rejected e;
  default_header :
    phase st = Started →
    headerP st = Resolved (Some emptyHeader)
    ∧ DeltaStorageGet id 0 ∈ calls st;
  default_document :
    ∀ doc, result st = Resolved doc →
    ∃ connection deltas,
      connectionP st = Resolved connection
      ∧ pendingDeltasP st = Resolved deltas
      ∧ Resolved doc = assemble st (Some emptyHeader) connection deltas;
}.

(** **** What an invocation of [connect] has done, and where it stands *)

(** The answer of the key generation an invocation acts on: the first one. *)
Fixpoint firstKeys (evs : list ConnectEvent)
    : option (Outcome (string * string)) :=
  match evs with
  | [] => None
  | KeysSettled keys :: _ => Some keys
  | _ :: evs' => firstKeys evs'
  end.

(** [privateKey] and [publicKey] of [connect], once they are assigned. *)
Definition keyPair (encrypted : bool) (evs : list ConnectEvent)
    : option (string * string) :=
  if encrypted then
    match firstKeys evs with
    | Some (Ok keys) => Some keys
    | _ => None
    end
  else Some ("", "").

(** Where [connect] stands after the events [evs]. *)
Definition phaseAfter (encrypted : bool) (evs : list ConnectEvent) : Phase :=
  if encrypted then
    match firstKeys evs with
    | None => AwaitingKeys
    | Some (Ok _) => Started
    | Some (Err _) => KeysFailed
    end
  else Started.

(** The calls of an invocation in the order of the statements of [connect]:
    the key generation of an encrypted connection; then, once the keys are
    there, the header of a given version, the handshake, and the deltas
    from the sequence number of the header that has arrived. *)
Definition expectedCalls (id : string) (version : option ICommit)
    (encrypted : bool) (keys : option (string * string))
    (headerP : PromiseState (option IDocumentHeader)) : list ExternalCall :=
  (if encrypted then [GenerateAsymmetricKeys 2048 "" id] else [])
  ++ match keys with
     | Some (privateKey, publicKey) =>
         match version with
         | Some version => [GetHeader id version]
         | None => []
         end
         ++ [EmitConnectDocument
               {| Connect.id := id; Connect.privateKey := privateKey;
                  Connect.publicKey := publicKey;
                  Connect.encrypted := encrypted |}]
         ++ match headerP with
            | Resolved (Some header) =>
                [DeltaStorageGet id
                   (Header.sequenceNumber (Header.attributes header))]
            | Resolved None => [DeltaStorageGet id 0]
            | _ => []
            end
     | None => []
     end.

(** What holds of every invocation after the events [evs]. *)
Record protocol (id : string) (version : option ICommit) (encrypted : bool)
    (evs : list ConnectEvent) (st : Invocation) : Prop := {
  protocol_args :
    argId st = id ∧ argVersion st = version ∧ argEncrypted st = encrypted;
  protocol_phase : phase st = phaseAfter encrypted evs;
  protocol_calls :
    calls st
    = expectedCalls id version encrypted (keyPair encrypted evs) (headerP st);
}.

(** How the promise of [connect] follows from its three branches. *)
Record joined (st : Invocation) : Prop := {
  joined_resolved : ∀ doc,
    result st = Resolved doc →
    ∃ header connection deltas,
      headerP st = Resolved (Some header)
      ∧ connectionP st = Resolved connection
      ∧ pendingDeltasP st = Resolved deltas
      ∧ assemble st (Some header) connection deltas = Resolved doc;
  joined_all : ∀ header connection deltas,
    headerP st = Resolved header →
    connectionP st = Resolved connection →
    pendingDeltasP st = Resolved deltas →
    result st = assemble st header connection deltas;
  joined_rejected : ∀ e,
    result st = Rejected e →
    phase st = KeysFailed
    ∨ headerP st = Rejected e
    ∨ connectionP st = Rejected e
    ∨ pendingDeltasP st = Rejected e
    ∨ (e = "TypeError" ∧ headerP st = Resolved None
       ∧ (∃ connection, connectionP st = Resolved connection)
       ∧ (∃ deltas, pendingDeltasP st = Resolved deltas));
  joined_pending :
    result st = Pending →
    phase st ≠ KeysFailed
    ∧ (∀ e, headerP st ≠ Rejected e)
    ∧ (∀ e, connectionP st ≠ Rejected e)
    ∧ (∀ e, pendingDeltasP st ≠ Rejected e);
  joined_waiting :
    phase st ≠ Started →
    headerP st = Pending ∧ connectionP st = Pending
    ∧ pendingDeltasP st = Pending;
  joined_deltas :
    match headerP st with
    | Pending => pendingDeltasP st = Pending
    | Rejected e => pendingDeltasP st = Rejected e
    | Resolved _ => True
    end;
}.

(** **** The order of delivery *)

(** The clients registered for an event and a document, each once, in the
    order in which they first registered. *)
Definition firstRegistered (regs : list (string * DocumentDeltaConnection))
    (event documentId : string) : list string :=
  foldl (λ clientIds r,
           if decide (r.1 = event
                      ∧ DeltaConnection.documentId r.2 = documentId)
           then
             if decide (DeltaConnection.clientId r.2 ∈ clientIds)
             then clientIds
             else clientIds ++ [DeltaConnection.clientId r.2]
           else clientIds) [] regs.

End DocumentService.

(** ** Facts about PrefetchDocumentStorageService *)

Module PrefetchFacts.
Import Prefetch.

(** *** Walks are sequences of cached reads and version requests *)

Section Preservation.
Variable P : Service → Prop.
Hypothesis P_cachedRead : ∀ blob st, P st → P (cachedRead blob st).2.
Hypothesis P_prefetchCommit : ∀ entry st, P st → P (prefetchCommit st entry).

Lemma classify_preserves acc entry : P acc.2 → P (classify acc entry).2.
Proof.
  destruct acc as [secondary st], entry as [blobKey [b|]]; simpl;
    repeat case_match; simpl; auto.
Qed.

Lemma blobs_preserve blobs : ∀ acc, P acc.2 → P (foldl classify acc blobs).2.
Proof.
  induction blobs as [|entry blobs IH]; simpl; [done|].
  intros acc HP. by apply IH, classify_preserves.
Qed.

Lemma commits_preserve commits : ∀ st, P st → P (foldl prefetchCommit st commits).
Proof.
  induction commits as [|entry commits IH]; simpl; [done|].
  intros st HP. by apply IH, P_prefetchCommit.
Qed.

Lemma prefetchTreeCore_preserves tree :
  ∀ acc, P acc.2 → P (prefetchTreeCore tree acc).2.
Proof.
  induction tree as [blobs commits trees IH] using ISnapshotTree_nested_ind.
  intros acc HP. simpl.
  set (acc1 := foldl classify acc blobs).
  assert (P acc1.2) as H1 by by apply blobs_preserve.
  set (acc2 := (acc1.1, foldl prefetchCommit acc1.2 commits)).
  assert (P acc2.2) as H2 by by apply commits_preserve.
  clearbody acc2. clear H1 HP acc1 acc.
  revert acc2 H2. induction IH as [|e ts He _ IHts]; intros a Ha; [done|].
  by apply IHts, He.
Qed.

Lemma secondary_preserves secondary :
  ∀ st, P st → P (foldl (λ s blob, (cachedRead blob s).2) st secondary).
Proof.
  induction secondary as [|b bs IH]; simpl; [done|].
  intros st HP. by apply IH, P_cachedRead.
Qed.

Lemma prefetchTree_preserves tree st : P st → P (prefetchTree tree st).
Proof.
  intros HP. unfold prefetchTree.
  pose proof (prefetchTreeCore_preserves tree ([], st) HP) as H.
  destruct (prefetchTreeCore tree ([], st)) as [secondary st1].
  by apply secondary_preserves.
Qed.

End Preservation.

(** *** The flag only ever goes from enabled to disabled *)

Lemma cachedRead_enabled blob st :
  prefetchEnabled (cachedRead blob st).2 = prefetchEnabled st.
Proof. unfold cachedRead, storageCall. repeat case_match; by simplify_eq/=. Qed.

Lemma prefetchCommit_enabled entry st :
  prefetchEnabled (prefetchCommit st entry) = prefetchEnabled st.
Proof. done. Qed.

Lemma getSnapshotTree_enabled version st :
  prefetchEnabled (getSnapshotTree version st).2 = prefetchEnabled st.
Proof. unfold getSnapshotTree. simpl. by case_match. Qed.

Lemma prefetchTree_enabled tree st :
  prefetchEnabled (prefetchTree tree st) = prefetchEnabled st.
Proof.
  apply (prefetchTree_preserves (λ s, prefetchEnabled s = prefetchEnabled st));
    [|done..].
  intros blob s <-. apply cachedRead_enabled.
Qed.

Lemma settle_enabled p s st :
  prefetchEnabled (settle p s st) = prefetchEnabled st.
Proof.
  unfold settle.
  destruct (storage st !! p) as [call|]; [|done].
  destruct (settled st !! p); [done|].
  case_bool_decide; [|done].
  destruct call, s as [| |[tree|]|]; try done.
  - by rewrite prefetchTree_enabled.
  - by rewrite getSnapshotTree_enabled.
Qed.

Lemma step_enabled st ev :
  prefetchEnabled (step st ev) = true → prefetchEnabled st = true.
Proof.
  destruct ev; simpl; try done.
  - by rewrite cachedRead_enabled.
  - by rewrite getSnapshotTree_enabled.
  - by rewrite settle_enabled.
Qed.


Lemma run_enabled evs : ∀ st,
  prefetchEnabled (run st evs) = true → prefetchEnabled st = true.
Proof.
  induction evs as [|ev evs IH]; simpl; [done|].
  intros st H. by apply IH, step_enabled in H.
Qed.

Lemma run_disabled evs st :
  prefetchEnabled st = false → prefetchEnabled (run st evs) = false.
Proof.
  intros Hd. destruct (prefetchEnabled (run st evs)) eqn:He; [|done].
  apply run_enabled in He. congruence.
Qed.


(** *** Counting the reads of the wrapped service *)

Lemma storageReads_storageCall B c st :
  storageReads B (storageCall c st).2
  = storageReads B st + (if decide (c = StorageRead B) then 1 else 0).
Proof.
  unfold storageReads. simpl. rewrite filter_app, length_app. f_equal.
  rewrite filter_cons, filter_nil. by case_decide.
Qed.

(** *** Every reachable instance is consistent *)

Lemma consistent_init : consistent init.
Proof.
  split; simpl; try done.
  intros p Hp. by apply elem_of_nil in Hp.
Qed.

Lemma consistent_storageCall c st :
  (∀ B, c ≠ StorageRead B) →
  consistent st → consistent (storageCall c st).2.
Proof.
  intros Hc [H1 H2 H3 H4 H5]. split; simpl.
  - intros B p Hp. rewrite lookup_app_l; [by apply H1|].
    by eapply lookup_lt_Some, H1.
  - intros He B. pose proof (storageReads_storageCall B c st) as Hn.
    simpl in Hn. rewrite Hn, (H2 He). case_decide; [by destruct (Hc B)|lia].
  - done.
  - intros p Hp. rewrite length_app. simpl. specialize (H4 p Hp). lia.
  - intros p s Hp. rewrite length_app. simpl. specialize (H5 p s Hp). lia.
Qed.

Lemma consistent_onSettled p st :
  p < length (storage st) → consistent st → consistent (onSettled p st).
Proof.
  intros Hp [H1 H2 H3 H4 H5]. split; simpl; try done.
  intros q [Hq | ->%list_elem_of_singleton]%elem_of_app; auto.
Qed.

Lemma consistent_cachedRead blob st :
  consistent st → consistent (cachedRead blob st).2.
Proof.
  intros Hst. unfold cachedRead.
  destruct (prefetchEnabled st) eqn:He.
  - destruct (prefetchCache st !! blob) as [p|] eqn:Hc; [done|].
    destruct Hst as [H1 H2 H3 H4 H5]. split; simpl.
    + intros B p. destruct (decide (blob = B)) as [<-|Hne].
      * rewrite lookup_insert_eq. intros [= <-].
        by rewrite lookup_app_r, Nat.sub_diag.
      * rewrite lookup_insert_ne by done. intros Hp.
        rewrite lookup_app_l; [by apply H1|].
        by eapply lookup_lt_Some, H1.
    + intros _ B.
      pose proof (storageReads_storageCall B (StorageRead blob) st) as Hn.
      unfold storageReads in *. simpl in *. rewrite Hn, (H2 He).
      destruct (decide (blob = B)) as [<-|Hne].
      * rewrite lookup_insert_eq, Hc. by rewrite decide_True.
      * rewrite lookup_insert_ne by done.
        rewrite decide_False by congruence. lia.
    + congruence.
    + intros p Hp. rewrite length_app. simpl. specialize (H4 p Hp). lia.
    + intros p s Hp. rewrite length_app. simpl. specialize (H5 p s Hp). lia.
  - destruct Hst as [H1 H2 H3 H4 H5]. split; simpl.
    + intros B p Hp. rewrite (H3 He) in Hp. by rewrite lookup_empty in Hp.
    + congruence.
    + done.
    + intros p Hp. rewrite length_app. simpl. specialize (H4 p Hp). lia.
    + intros p s Hp. rewrite length_app. simpl. specialize (H5 p s Hp). lia.
Qed.

Lemma consistent_getVersions commitId count st :
  consistent st → consistent (getVersions commitId count st).2.
Proof. by apply consistent_storageCall. Qed.

Lemma consistent_prefetchCommit entry st :
  consistent st → consistent (prefetchCommit st entry).
Proof.
  intros Hst. unfold prefetchCommit, getVersions.
  apply consistent_onSettled; [|by apply consistent_storageCall].
  simpl. rewrite length_app. simpl. lia.
Qed.

Lemma consistent_getSnapshotTree version st :
  consistent st → consistent (getSnapshotTree version st).2.
Proof.
  intros Hst. unfold getSnapshotTree.
  pose proof (consistent_storageCall (StorageGetSnapshotTree version) st
                ltac:(done) Hst) as H1.
  simpl in *. case_match; simpl; [|done].
  apply consistent_onSettled; [|done].
  simpl. rewrite length_app. simpl. lia.
Qed.

Lemma consistent_prefetchTree tree st :
  consistent st → consistent (prefetchTree tree st).
Proof.
  apply prefetchTree_preserves.
  - apply consistent_cachedRead.
  - apply consistent_prefetchCommit.
Qed.

Lemma consistent_stopPrefetch st : consistent st → consistent (stopPrefetch st).
Proof.
  intros [H1 H2 H3 H4 H5]. by split.
Qed.

Lemma consistent_settle p s st : consistent st → consistent (settle p s st).
Proof.
  intros Hst. unfold settle.
  destruct (storage st !! p) as [call|] eqn:Hp; [|done].
  destruct (settled st !! p) eqn:Hs; [done|].
  set (st1 := Build_Service _ _ _ _ _).
  assert (consistent st1) as Hst1.
  { destruct Hst as [H1 H2 H3 H4 H5]. split; simpl; try done.
    intros q s'. destruct (decide (p = q)) as [<-|Hne].
    - intros _. by apply lookup_lt_Some in Hp.
    - rewrite lookup_insert_ne by done. apply H5. }
  case_bool_decide; [|done].
  destruct call, s as [| |[tree|]|]; try done.
  - by apply consistent_prefetchTree.
  - by apply consistent_getSnapshotTree.
Qed.

Lemma consistent_step st ev : consistent st → consistent (step st ev).
Proof.
  destruct ev; simpl.
  - apply consistent_cachedRead.
  - apply consistent_getSnapshotTree.
  - apply consistent_getVersions.
  - apply consistent_stopPrefetch.
  - apply consistent_settle.
Qed.

Lemma consistent_run evs : ∀ st, consistent st → consistent (run st evs).
Proof.
  induction evs as [|ev evs IH]; simpl; [done|].
  intros st Hst. by apply IH, consistent_step.
Qed.

Lemma consistent_reachable evs : consistent (run init evs).
Proof. apply consistent_run, consistent_init. Qed.

(** *** The wrapped service only ever sees more calls *)

Lemma storage_cachedRead blob st :
  storage st `prefix_of` storage (cachedRead blob st).2.
Proof.
  unfold cachedRead, storageCall.
  repeat case_match; simplify_eq/=; try done; by apply prefix_app_r.
Qed.

Lemma storage_prefetchTree tree st :
  storage st `prefix_of` storage (prefetchTree tree st).
Proof.
  apply (prefetchTree_preserves (λ s, storage st `prefix_of` storage s));
    [| |done].
  - intros blob s Hs. etrans; [done|]. apply storage_cachedRead.
  - intros entry s Hs. simpl. by apply prefix_app_r.
Qed.

Lemma storage_getSnapshotTree version st :
  storage st `prefix_of` storage (getSnapshotTree version st).2.
Proof. unfold getSnapshotTree. simpl. case_match; by apply prefix_app_r. Qed.

Lemma storage_settle p s st : storage st `prefix_of` storage (settle p s st).
Proof.
  unfold settle.
  destruct (storage st !! p) as [call|]; [|done].
  destruct (settled st !! p); [done|].
  case_bool_decide; [|done].
  destruct call, s as [| |[tree|]|]; try done.
  - apply (storage_prefetchTree tree (Build_Service _ _ _ _ _)).
  - apply (storage_getSnapshotTree _ (Build_Service _ _ _ _ _)).
Qed.

Lemma storage_step st ev : storage st `prefix_of` storage (step st ev).
Proof.
  destruct ev; simpl; try done.
  - apply storage_cachedRead.
  - apply storage_getSnapshotTree.
  - by apply prefix_app_r.
  - apply storage_settle.
Qed.

Lemma storage_run evs : ∀ st, storage st `prefix_of` storage (run st evs).
Proof.
  induction evs as [|ev evs IH]; simpl; [done|].
  intros st. etrans; [apply storage_step|apply IH].
Qed.

(** *** A cached promise stays cached, and a settled one stays settled *)

Lemma cachedRead_hit B p st :
  prefetchEnabled st = true → prefetchCache st !! B = Some p →
  cachedRead B st = (p, st).
Proof. intros He Hc. unfold cachedRead. by rewrite He, Hc. Qed.

Lemma cached_cachedRead B p blob st :
  prefetchCache st !! B = Some p →
  prefetchEnabled st = true →
  prefetchCache (cachedRead blob st).2 !! B = Some p.
Proof.
  intros Hc He. unfold cachedRead. rewrite He.
  destruct (prefetchCache st !! blob) eqn:Hb; simpl; [done|].
  rewrite lookup_insert_ne; [done|congruence].
Qed.

Lemma cached_prefetchTree B p tree st :
  prefetchCache st !! B = Some p →
  prefetchEnabled st = true →
  prefetchCache (prefetchTree tree st) !! B = Some p.
Proof.
  intros Hc He.
  apply (prefetchTree_preserves
           (λ s, prefetchCache s !! B = Some p ∧ prefetchEnabled s = true));
    [| |done].
  - intros blob s [Hs1 Hs2]. split; [by apply cached_cachedRead|].
    by rewrite cachedRead_enabled.
  - by intros entry s [Hs1 Hs2].
Qed.

Lemma cached_getSnapshotTree version st :
  prefetchCache (getSnapshotTree version st).2 = prefetchCache st.
Proof. unfold getSnapshotTree. simpl. by case_match. Qed.

Lemma cached_settle B p q s st :
  prefetchCache st !! B = Some p →
  prefetchEnabled st = true →
  prefetchCache (settle q s st) !! B = Some p.
Proof.
  intros Hc He. unfold settle.
  destruct (storage st !! q) as [call|]; [|done].
  destruct (settled st !! q); [done|].
  case_bool_decide; [|done].
  destruct call, s as [| |[tree|]|]; try done.
  - by apply cached_prefetchTree.
  - by rewrite cached_getSnapshotTree.
Qed.

Lemma cached_step B p st ev :
  prefetchCache st !! B = Some p →
  prefetchEnabled (step st ev) = true →
  prefetchCache (step st ev) !! B = Some p.
Proof.
  intros Hc He. pose proof (step_enabled _ _ He) as He0.
  destruct ev; simpl in *; try done.
  - by apply cached_cachedRead.
  - by rewrite cached_getSnapshotTree.
  - by apply cached_settle.
Qed.

Lemma cached_run B p evs : ∀ st,
  prefetchCache st !! B = Some p →
  prefetchEnabled (run st evs) = true →
  prefetchCache (run st evs) !! B = Some p.
Proof.
  induction evs as [|ev evs IH]; simpl; [done|].
  intros st Hc He. apply IH; [|done].
  apply cached_step; [done|]. by apply run_enabled in He.
Qed.

Lemma settled_cachedRead blob st : settled (cachedRead blob st).2 = settled st.
Proof. unfold cachedRead, storageCall. repeat case_match; by simplify_eq/=. Qed.

Lemma settled_prefetchTree tree st : settled (prefetchTree tree st) = settled st.
Proof.
  apply (prefetchTree_preserves (λ s, settled s = settled st)); [| |done].
  - intros blob s <-. apply settled_cachedRead.
  - by intros entry s <-.
Qed.

Lemma settled_getSnapshotTree version st :
  settled (getSnapshotTree version st).2 = settled st.
Proof. unfold getSnapshotTree. simpl. by case_match. Qed.

Lemma settled_settle p s q s' st :
  settled st !! p = Some s → settled (settle q s' st) !! p = Some s.
Proof.
  intros Hp. unfold settle.
  destruct (storage st !! q) as [call|]; [|done].
  destruct (settled st !! q) eqn:Hq; [done|].
  assert (q ≠ p) as Hne by congruence.
  case_bool_decide; [|by simpl; rewrite lookup_insert_ne].
  destruct call, s' as [| |[tree|]|];
    rewrite ?settled_prefetchTree, ?settled_getSnapshotTree; simpl;
    by rewrite lookup_insert_ne.
Qed.

Lemma settled_step p s st ev :
  settled st !! p = Some s → settled (step st ev) !! p = Some s.
Proof.
  intros Hp. destruct ev; simpl; try done.
  - by rewrite settled_cachedRead.
  - by rewrite settled_getSnapshotTree.
  - by apply settled_settle.
Qed.

Lemma settled_run p s evs : ∀ st,
  settled st !! p = Some s → settled (run st evs) !! p = Some s.
Proof.
  induction evs as [|ev evs IH]; simpl; [done|].
  intros st Hp. by apply IH, settled_step.
Qed.

(** *** The guard on delta-log blobs never fires *)

Lemma notDeltas_always blobKey : notDeltas blobKey = true.
Proof. unfold notDeltas. apply bool_decide_eq_true. by destruct blobKey. Qed.

(** *** At most one read per blob *)

Lemma at_most_one_storage_read_per_blob evs B :
  prefetchEnabled (run init evs) = true → storageReads B (run init evs) ≤ 1.
Proof.
  intros He. rewrite (reads_counted _ (consistent_reachable evs) He).
  destruct (prefetchCache (run init evs) !! B); lia.
Qed.

(** *** Reads in a row *)

Lemma reads_hit n B p st :
  prefetchEnabled st = true → prefetchCache st !! B = Some p →
  reads n B st = (replicate n p, st).
Proof.
  intros He Hc. induction n as [|n IH]; simpl; [done|].
  unfold read. by rewrite (cachedRead_hit B p st), IH.
Qed.

(** C1. While prefetching is enabled, [S n] calls of [read(B)] made in a
    row (none awaited, so before any of them settles) all return one and
    the same promise, the one stored under [B] from the first call on, and
    the wrapped service has been asked for [B] once in the life of the
    instance.  When [B] was not cached before, the first call issues that
    one read, and stores its promise, still pending, under [B]; the later
    calls issue nothing. *)
Theorem concurrent_reads_share_one_storage_read evs B n :
  let st := run init evs in
  prefetchEnabled st = true →
  let p := (read B st).1 in
  let st1 := (read B st).2 in
  reads (S n) B st = (replicate (S n) p, st1)
  ∧ prefetchCache st1 !! B = Some p
  ∧ storageReads B (reads (S n) B st).2 = 1
  ∧ (prefetchCache st !! B = None →
     p = length (storage st)
     ∧ settled st1 !! p = None
     ∧ storage st1 = storage st ++ [StorageRead B]
     ∧ storage (reads (S n) B st).2 = storage st ++ [StorageRead B]).
Proof.
  intros st He p st1.
  pose proof (consistent_reachable evs) as Hst. fold st in Hst.
  assert (prefetchEnabled st1 = true) as He1.
  { unfold st1, read. by rewrite cachedRead_enabled. }
  assert (consistent st1) as Hst1 by by apply consistent_cachedRead.
  assert (prefetchCache st1 !! B = Some p) as Hc1.
  { unfold st1, p, read, cachedRead. rewrite He.
    destruct (prefetchCache st !! B) eqn:Hc; simpl; [done|].
    apply lookup_insert_eq. }
  assert (reads (S n) B st = (replicate (S n) p, st1)) as Hreads.
  { simpl. rewrite (surjective_pairing (read B st)).
    fold p st1. by rewrite (reads_hit n B p st1). }
  rewrite Hreads. simpl. split_and!; try done.
  - by rewrite (reads_counted _ Hst1 He1), Hc1.
  - intros Hc.
    assert (read B st
            = (length (storage st),
               cacheSet B (length (storage st))
                 (storageCall (StorageRead B) st).2)) as Hread.
    { unfold read, cachedRead. by rewrite He, Hc. }
    unfold p, st1. rewrite Hread. simpl. split_and!; try done.
    destruct (settled st !! length (storage st)) as [s|] eqn:Hs; [|done].
    apply (settled_issued _ Hst) in Hs. lia.
Qed.

Lemma concurrent_reads_share_one_storage_read_witness :
  reads 3 "b" (run init [CallRead "a"])
  = (replicate 3 (read "b" (run init [CallRead "a"])).1,
     (read "b" (run init [CallRead "a"])).2)
  ∧ storageReads "b" (reads 3 "b" (run init [CallRead "a"])).2 = 1.
Proof.
  pose proof (concurrent_reads_share_one_storage_read [CallRead "a"] "b" 2
                eq_refl) as (H1 & _ & H2 & _).
  split; [exact H1|exact H2].
Defined.

(** C2 (the code departs from it).  A blob named ["deltas"] is not eager,
    and yet the walk collects its id into the secondary list and reads it:
    the guard compares the first character of the name with ["deltas"]. *)
Theorem deltas_blob_is_prefetched :
  let tree := SnapshotTree [("deltas", Some "d1")] [] [] in
  isEager "deltas" = false
  ∧ (prefetchTreeCore tree ([], init)).1 = ["d1"]
  ∧ storage (prefetchTree tree init) = [StorageRead "d1"]
  ∧ prefetchCache (prefetchTree tree init) !! "d1" = Some 0.
Proof. by vm_compute. Qed.

(** C3. On the tree with blobs [.attr], [header], [quorumMembers] and
    [content.txt], classification reads [b1], [b2] and [b3] through the
    cache, in that order, and leaves [b4] in the shared secondary list;
    [b4] is read through the cache once the traversal has returned.  On a
    new instance these are four reads of the wrapped service, [b4] last. *)
Theorem eager_blobs_first_secondary_after_traversal b1 b2 b3 b4 st :
  let eager := (cachedRead b3 (cachedRead b2 (cachedRead b1 st).2).2).2 in
  prefetchTreeCore (exampleTree b1 b2 b3 b4) ([], st) = ([b4], eager)
  ∧ prefetchTree (exampleTree b1 b2 b3 b4) st = (cachedRead b4 eager).2
  ∧ storage (prefetchTree (exampleTree "b1" "b2" "b3" "b4") init)
    = [StorageRead "b1"; StorageRead "b2"; StorageRead "b3"; StorageRead "b4"].
Proof. split_and!; [done|done|by vm_compute]. Qed.

(** C6. After [stopPrefetch] the cache is empty and the flag is off, and
    both stay so whatever happens next; a later [read(B)] is the read of
    the wrapped service and nothing else: it returns a new promise, which is
    none of the promises cached before the call, and leaves the cache
    empty. *)
Theorem reads_bypass_cache_after_stopPrefetch evs1 evs2 B :
  let st0 := run init evs1 in
  let st := run (stopPrefetch st0) evs2 in
  prefetchCache (stopPrefetch st0) = ∅
  ∧ prefetchEnabled st = false
  ∧ prefetchCache st = ∅
  ∧ read B st = storageCall (StorageRead B) st
  ∧ (∀ B' q, prefetchCache st0 !! B' = Some q → (read B st).1 ≠ q)
  ∧ storage (read B st).2 = storage st ++ [StorageRead B]
  ∧ prefetchCache (read B st).2 = ∅
  ∧ prefetchEnabled (read B st).2 = false.
Proof.
  intros st0 st.
  assert (prefetchEnabled st = false) as He by by apply run_disabled.
  assert (consistent st) as Hst.
  { apply consistent_run, consistent_stopPrefetch, consistent_reachable. }
  pose proof (disabled_empty _ Hst He) as Hc.
  assert (read B st = storageCall (StorageRead B) st) as Hread.
  { unfold read, cachedRead. by rewrite He. }
  rewrite Hread. split_and!; try done.
  intros B' q Hq. simpl.
  pose proof (cache_is_read _ (consistent_reachable evs1) _ _ Hq) as Hq'.
  apply lookup_lt_Some in Hq'.
  pose proof (prefix_length _ _ (storage_run evs2 (stopPrefetch st0))) as Hle.
  simpl in Hle. fold st in Hle. fold st0 in Hq'. lia.
Qed.

(** C7. While prefetching is enabled, once the read of [B] has been
    rejected its promise stays in the cache: whatever happens next, short of
    [stopPrefetch], [read(B)] returns that same rejected promise and issues
    nothing, the wrapped service has been asked for [B] once, and no
    rejection removes anything from the cache. *)
Theorem failed_read_stays_cached evs1 evs2 B p e :
  let st := run init evs1 in
  let st' := run st evs2 in
  prefetchCache st !! B = Some p →
  settled st !! p = Some (Rejected e) →
  prefetchEnabled st' = true →
  read B st' = (p, st')
  ∧ settled st' !! p = Some (Rejected e)
  ∧ storageReads B st' = 1
  ∧ ∀ q e', prefetchCache (settle q (Rejected e') st') = prefetchCache st'.
Proof.
  intros st st' Hc Hs He.
  assert (prefetchCache st' !! B = Some p) as Hc' by by apply cached_run.
  assert (consistent st') as Hst'.
  { apply consistent_run, consistent_reachable. }
  split_and!.
  - by apply cachedRead_hit.
  - by apply settled_run.
  - by rewrite (reads_counted _ Hst' He), Hc'.
  - intros q e'. unfold settle.
    destruct (storage st' !! q) as [call|]; [|done].
    destruct (settled st' !! q); [done|].
    case_bool_decide; by destruct call.
Qed.

Lemma failed_read_stays_cached_witness :
  let st' := run init [CallRead "b"; Settle 0 (Rejected "503");
                       CallRead "c"; CallRead "b"] in
  read "b" st' = (0, st') ∧ storageReads "b" st' = 1.
Proof.
  pose proof (failed_read_stays_cached
                [CallRead "b"; Settle 0 (Rejected "503")]
                [CallRead "c"; CallRead "b"] "b" 0 "503"
                eq_refl eq_refl eq_refl) as (H1 & _ & H2 & _).
  split; [exact H1|exact H2].
Defined.

Lemma settle_without_callback p s st :
  p ∉ callbacks st →
  storage (settle p s st) = storage st
  ∧ prefetchCache (settle p s st) = prefetchCache st
  ∧ callbacks (settle p s st) = callbacks st
  ∧ prefetchEnabled (settle p s st) = prefetchEnabled st.
Proof.
  intros Hp. unfold settle.
  destruct (storage st !! p) as [call|]; [|done].
  destruct (settled st !! p); [done|].
  by rewrite bool_decide_eq_false_2.
Qed.

(** C10. After [stopPrefetch], [getSnapshotTree] is the call on the wrapped
    service and nothing else: it returns that service's promise and
    registers no callback on it, so when the promise settles, with whatever
    tree, the instance only sees the settlement: no walk, no call on the
    wrapped service, no change to the cache. *)
Theorem getSnapshotTree_after_stopPrefetch_spawns_no_walk evs1 evs2 version s :
  let st := run (stopPrefetch (run init evs1)) evs2 in
  let p := (getSnapshotTree version st).1 in
  let st' := (getSnapshotTree version st).2 in
  getSnapshotTree version st = storageCall (StorageGetSnapshotTree version) st
  ∧ callbacks st' = callbacks st
  ∧ (p ∉ callbacks st')
  ∧ storage (settle p s st') = storage st'
  ∧ prefetchCache (settle p s st') = prefetchCache st'
  ∧ callbacks (settle p s st') = callbacks st'
  ∧ prefetchEnabled (settle p s st') = false.
Proof.
  intros st p st'.
  assert (prefetchEnabled st = false) as He by by apply run_disabled.
  assert (consistent st) as Hst.
  { apply consistent_run, consistent_stopPrefetch, consistent_reachable. }
  assert (getSnapshotTree version st
          = storageCall (StorageGetSnapshotTree version) st) as Hg.
  { unfold getSnapshotTree.
    assert (prefetchEnabled
              (storageCall (StorageGetSnapshotTree version) st).2 = false)
      as He1 by done.
    destruct (storageCall (StorageGetSnapshotTree version) st) as [q s1].
    simpl in He1. by rewrite He1. }
  assert (p ∉ callbacks st) as Hp.
  { intros Hin. apply (callbacks_issued _ Hst) in Hin. unfold p in Hin.
    rewrite Hg in Hin. simpl in Hin. lia. }
  unfold st', p in *. rewrite Hg in *. simpl in *.
  destruct (settle_without_callback (length (storage st)) s
              (storageCall (StorageGetSnapshotTree version) st).2 Hp)
    as (H1 & H2 & H3 & H4).
  split_and!; try done. by etrans.
Qed.

(** *** The walk, flattened *)

Lemma classify_steps blobs : ∀ secondary st,
  foldl classify (secondary, st) blobs
  = (secondary ++ otherBlobs blobs,
     foldl walkStep st (ReadBlob <$> eagerBlobs blobs)).
Proof.
  induction blobs as [|[blobKey blob] blobs IH]; intros secondary st; simpl.
  - by rewrite app_nil_r.
  - unfold eagerBlobs, otherBlobs. simpl.
    rewrite notDeltas_always.
    destruct (isEager blobKey), blob as [b|]; simpl; rewrite IH; try done.
    by rewrite <- app_assoc.
Qed.

Lemma commits_steps commits : ∀ st,
  foldl prefetchCommit st commits
  = foldl walkStep st (RequestVersions <$> commits).
Proof.
  induction commits as [|entry commits IH]; intros st; simpl; [done|].
  by rewrite IH.
Qed.

Lemma prefetchTreeCore_steps tree : ∀ secondary st,
  prefetchTreeCore tree (secondary, st)
  = (secondary ++ secondaryBlobs tree, foldl walkStep st (walkSteps tree)).
Proof.
  induction tree as [blobs commits trees IH] using ISnapshotTree_nested_ind.
  intros secondary st. simpl.
  rewrite classify_steps. simpl. rewrite commits_steps.
  rewrite !foldl_app.
  set (st1 := foldl walkStep (foldl walkStep st _) _).
  rewrite (app_assoc secondary).
  generalize (secondary ++ otherBlobs blobs). clearbody st1.
  revert st1. induction IH as [|e ts He _ IHts]; intros st1 sec; simpl.
  - by rewrite app_nil_r.
  - rewrite He, IHts, foldl_app. by rewrite <- app_assoc.
Qed.

Lemma prefetchTree_steps tree st :
  prefetchTree tree st
  = foldl (λ s blob, (cachedRead blob s).2)
      (foldl walkStep st (walkSteps tree)) (secondaryBlobs tree).
Proof. unfold prefetchTree. by rewrite prefetchTreeCore_steps. Qed.

Lemma level_blobs_split (blobs : list (string * option string)) b :
  b ∈ omap snd blobs ↔ b ∈ eagerBlobs blobs ∨ b ∈ otherBlobs blobs.
Proof.
  unfold eagerBlobs, otherBlobs.
  induction blobs as [|[blobKey blob] blobs IH]; simpl.
  - rewrite elem_of_nil. tauto.
  - destruct (isEager blobKey), blob as [b'|]; simpl;
      rewrite ?elem_of_cons, IH; tauto.
Qed.

Lemma blobsOf_split tree b :
  b ∈ blobsOf tree ↔ ReadBlob b ∈ walkSteps tree ∨ b ∈ secondaryBlobs tree.
Proof.
  induction tree as [blobs commits trees IH] using ISnapshotTree_nested_ind.
  simpl. rewrite !elem_of_app, level_blobs_split.
  assert (ReadBlob b ∈ ReadBlob <$> eagerBlobs blobs ↔ b ∈ eagerBlobs blobs)
    as ->.
  { rewrite list_elem_of_fmap. split; [by intros (? & [= <-] & ?)|eauto]. }
  assert (ReadBlob b ∈ RequestVersions <$> commits ↔ False) as ->.
  { rewrite list_elem_of_fmap. split; [by intros (? & ? & ?)|done]. }
  match goal with
  | |- _ ∨ ?all ↔ (_ ∨ _ ∨ ?steps) ∨ _ ∨ ?secondary =>
      assert (all ↔ steps ∨ secondary) as ->
  end.
  { induction IH as [|e ts He _ IHts]; simpl.
    - rewrite !elem_of_nil. by split; [|intros [|]].
    - rewrite !elem_of_app, He, IHts.
      generalize (ReadBlob b ∈ walkSteps e.2), (b ∈ secondaryBlobs e.2).
      clear. intros. tauto. }
  generalize (b ∈ eagerBlobs blobs), (b ∈ otherBlobs blobs).
  clear. intros. tauto.
Qed.

(** *** What a walk leaves in the cache *)

Lemma cachedRead_caches b st :
  prefetchEnabled st = true → is_Some (prefetchCache (cachedRead b st).2 !! b).
Proof.
  intros He. unfold cachedRead. rewrite He.
  destruct (prefetchCache st !! b) eqn:Hb; simpl; [by rewrite Hb|].
  rewrite lookup_insert_eq. eauto.
Qed.

Lemma walkStep_enabled st a :
  prefetchEnabled (walkStep st a) = prefetchEnabled st.
Proof. destruct a; simpl; [apply cachedRead_enabled|done]. Qed.

Lemma walkStep_keeps b st a :
  prefetchEnabled st = true →
  is_Some (prefetchCache st !! b) ∨ a = ReadBlob b →
  is_Some (prefetchCache (walkStep st a) !! b).
Proof.
  intros He [[p Hp]| ->]; simpl; [|by apply cachedRead_caches].
  destruct a; simpl; [|by rewrite Hp].
  rewrite (cached_cachedRead b p); eauto.
Qed.

Lemma walkSteps_enabled steps : ∀ st,
  prefetchEnabled (foldl walkStep st steps) = prefetchEnabled st.
Proof.
  induction steps as [|a steps IH]; intros st; simpl; [done|].
  by rewrite IH, walkStep_enabled.
Qed.

Lemma walkSteps_cache b steps : ∀ st,
  prefetchEnabled st = true →
  is_Some (prefetchCache st !! b) ∨ ReadBlob b ∈ steps →
  is_Some (prefetchCache (foldl walkStep st steps) !! b).
Proof.
  induction steps as [|a steps IH]; intros st He Hb; simpl.
  - destruct Hb as [Hb|Hb]; [done|by apply elem_of_nil in Hb].
  - apply IH; [by rewrite walkStep_enabled|].
    rewrite elem_of_cons in Hb.
    destruct Hb as [Hb|[Hb|Hb]]; [left|left|by right];
      apply walkStep_keeps; auto.
Qed.

Lemma secondary_cache b blobs : ∀ st,
  prefetchEnabled st = true →
  is_Some (prefetchCache st !! b) ∨ b ∈ blobs →
  is_Some (prefetchCache (foldl (λ s blob, (cachedRead blob s).2) st blobs) !! b).
Proof.
  induction blobs as [|b' blobs IH]; intros st He Hb; simpl.
  - destruct Hb as [Hb|Hb]; [done|by apply elem_of_nil in Hb].
  - apply IH; [by rewrite cachedRead_enabled|].
    rewrite elem_of_cons in Hb.
    destruct Hb as [Hb|[->|Hb]]; [left|left|by right].
    + by apply (walkStep_keeps b st (ReadBlob b')); auto.
    + by apply cachedRead_caches.
Qed.

(** *** A walk on a disabled instance *)

Lemma walkStep_disabled st a :
  prefetchEnabled st = false →
  storage (walkStep st a) = storage st ++ [stepCall a]
  ∧ prefetchCache (walkStep st a) = prefetchCache st
  ∧ prefetchEnabled (walkStep st a) = false.
Proof.
  intros He. destruct a; simpl; [|done].
  unfold cachedRead. by rewrite He.
Qed.

Lemma walkSteps_disabled steps : ∀ st,
  prefetchEnabled st = false →
  storage (foldl walkStep st steps) = storage st ++ (stepCall <$> steps)
  ∧ prefetchCache (foldl walkStep st steps) = prefetchCache st
  ∧ prefetchEnabled (foldl walkStep st steps) = false.
Proof.
  induction steps as [|a steps IH]; intros st He; simpl.
  - by rewrite app_nil_r.
  - destruct (walkStep_disabled st a He) as (Hs & Hc & He').
    destruct (IH _ He') as (-> & -> & ->).
    by rewrite Hs, Hc, <- app_assoc.
Qed.

Lemma prefetchTree_disabled tree st :
  prefetchEnabled st = false →
  storage (prefetchTree tree st) = storage st ++ walkCalls tree
  ∧ prefetchCache (prefetchTree tree st) = prefetchCache st
  ∧ prefetchEnabled (prefetchTree tree st) = false.
Proof.
  intros He. rewrite prefetchTree_steps. unfold walkCalls.
  destruct (walkSteps_disabled (walkSteps tree) st He) as (Hs & Hc & He').
  rewrite app_assoc, <- Hs, <- Hc.
  pose proof (walkSteps_disabled (ReadBlob <$> secondaryBlobs tree)
                (foldl walkStep st (walkSteps tree)) He') as H.
  assert (∀ blobs s,
            foldl walkStep s (ReadBlob <$> blobs)
            = foldl (λ s blob, (cachedRead blob s).2) s blobs) as Hfold.
  { induction blobs as [|b blobs IH]; intros s; simpl; [done|]. by rewrite IH. }
  rewrite Hfold in H. destruct H as (-> & -> & ->).
  by rewrite <- list_fmap_compose.
Qed.

(** X1. A walk is a depth-first traversal: on the way down it reads the
    eager blobs of each level through the cache and asks for the versions
    of each nested commit, level by level, and collects every other blob
    that is present; when the traversal is over it reads the collected
    blobs, in the order they were collected.  Every blob of the tree is
    read on the way down or collected; none is left out. *)
Theorem walk_is_depth_first tree secondary st :
  prefetchTreeCore tree (secondary, st)
  = (secondary ++ secondaryBlobs tree, foldl walkStep st (walkSteps tree))
  ∧ prefetchTree tree st
    = foldl (λ s blob, (cachedRead blob s).2)
        (foldl walkStep st (walkSteps tree)) (secondaryBlobs tree)
  ∧ ∀ b, b ∈ blobsOf tree
         ↔ ReadBlob b ∈ walkSteps tree ∨ b ∈ secondaryBlobs tree.
Proof.
  split_and!.
  - apply prefetchTreeCore_steps.
  - apply prefetchTree_steps.
  - intros b. apply blobsOf_split.
Qed.

Lemma prefetchTree_caches tree b st :
  prefetchEnabled st = true → b ∈ blobsOf tree →
  is_Some (prefetchCache (prefetchTree tree st) !! b).
Proof.
  intros He Hb. rewrite prefetchTree_steps.
  apply blobsOf_split in Hb.
  apply secondary_cache; [by rewrite walkSteps_enabled|].
  destruct Hb as [Hb|Hb]; [left|by right].
  apply walkSteps_cache; auto.
Qed.

(** *** A callback, once registered, stays registered *)

Lemma callbacks_cachedRead blob st :
  callbacks (cachedRead blob st).2 = callbacks st.
Proof. unfold cachedRead, storageCall. by repeat case_match. Qed.

Lemma callbacks_prefetchTree p tree st :
  p ∈ callbacks st → p ∈ callbacks (prefetchTree tree st).
Proof.
  apply (prefetchTree_preserves (λ s, p ∈ callbacks s)).
  - intros blob s. by rewrite callbacks_cachedRead.
  - intros entry s Hs. simpl. apply elem_of_app. by left.
Qed.

Lemma callbacks_getSnapshotTree p version st :
  p ∈ callbacks st → p ∈ callbacks (getSnapshotTree version st).2.
Proof.
  unfold getSnapshotTree. simpl. case_match; simpl; [|done].
  intros Hp. apply elem_of_app. by left.
Qed.

Lemma callbacks_step p st ev :
  p ∈ callbacks st → p ∈ callbacks (step st ev).
Proof.
  intros H. destruct ev as [blobId|version|commitId count| |q s]; simpl.
  - unfold read. by rewrite callbacks_cachedRead.
  - by apply callbacks_getSnapshotTree.
  - done.
  - done.
  - unfold settle. destruct (storage st !! q) as [call|]; [|done].
    destruct (settled st !! q); [done|].
    case_bool_decide; [|done].
    destruct call, s as [| |[tree|]|]; try done.
    + by apply callbacks_prefetchTree.
    + by apply callbacks_getSnapshotTree.
Qed.

Lemma callbacks_run p evs : ∀ st,
  p ∈ callbacks st → p ∈ callbacks (run st evs).
Proof.
  induction evs as [|ev evs IH]; simpl; [done|].
  intros st H. by apply IH, callbacks_step.
Qed.

Lemma settle_walks p version tree st :
  storage st !! p = Some (StorageGetSnapshotTree version) →
  settled st !! p = None →
  p ∈ callbacks st →
  settle p (Tree (Some tree)) st
  = prefetchTree tree (markSettled p (Tree (Some tree)) st).
Proof.
  intros Hs Hn Hc. unfold settle. rewrite Hs, Hn.
  by rewrite bool_decide_eq_true_2.
Qed.

Lemma unsettled_next st :
  consistent st → ∀ n, settled st !! (length (storage st) + n) = None.
Proof.
  intros Hst n. destruct (settled st !! _) eqn:Hp; [|done].
  apply (settled_issued _ Hst) in Hp. lia.
Qed.


(** The tree asked for while prefetching was enabled is walked when it
    arrives, whatever has happened in between. *)
Lemma awaited_tree_is_walked evs version evs' tree :
  let st := run init evs in
  let p := (getSnapshotTree version st).1 in
  let st1 := run (getSnapshotTree version st).2 evs' in
  prefetchEnabled st = true →
  settled st1 !! p = None →
  consistent st1
  ∧ settle p (Tree (Some tree)) st1
    = prefetchTree tree (markSettled p (Tree (Some tree)) st1).
Proof.
  intros st p st1 He Hn.
  assert (consistent st1) as Hst1.
  { apply consistent_run, consistent_getSnapshotTree, consistent_reachable. }
  split; [done|].
  apply (settle_walks p version); [|done|].
  - apply (prefix_lookup_Some (storage (getSnapshotTree version st).2));
      [|apply storage_run].
    unfold p, getSnapshotTree. simpl. rewrite He. simpl.
    by rewrite lookup_app_r, Nat.sub_diag by lia.
  - apply callbacks_run. unfold p, getSnapshotTree. simpl. rewrite He. simpl.
    apply elem_of_app. right. by apply list_elem_of_singleton.
Qed.

(** X2. Prefetching does what it is for.  When the tree asked for with
    [getSnapshotTree] arrives and prefetching is still enabled, every blob
    of the tree, at any depth and under any name, is in the cache
    afterwards: [read] of it returns the cached promise and calls nothing,
    and the wrapped service has been asked for it once. *)
Theorem prefetched_blobs_are_served_from_cache evs version evs' tree b :
  let st := run init evs in
  let p := (getSnapshotTree version st).1 in
  let st1 := run (getSnapshotTree version st).2 evs' in
  let st2 := settle p (Tree (Some tree)) st1 in
  prefetchEnabled st1 = true →
  settled st1 !! p = None →
  b ∈ blobsOf tree →
  ∃ q, prefetchCache st2 !! b = Some q
       ∧ read b st2 = (q, st2)
       ∧ storageReads b st2 = 1.
Proof.
  intros st p st1 st2 He1 Hn Hb.
  assert (prefetchEnabled st = true) as He.
  { apply run_enabled in He1. by rewrite getSnapshotTree_enabled in He1. }
  destruct (awaited_tree_is_walked evs version evs' tree He Hn) as [Hst1 Hw].
  fold st p st1 in Hst1, Hw.
  assert (consistent st2) as Hst2 by by apply consistent_settle.
  assert (prefetchEnabled st2 = true) as He2.
  { unfold st2. by rewrite settle_enabled. }
  assert (is_Some (prefetchCache st2 !! b)) as [q Hq].
  { unfold st2. rewrite Hw. by apply prefetchTree_caches. }
  exists q. split_and!; [done|by apply cachedRead_hit|].
  by rewrite (reads_counted _ Hst2 He2), Hq.
Qed.

(** X3. [stopPrefetch] does not cancel a walk that is already scheduled.
    If [getSnapshotTree] is called while prefetching is enabled and
    prefetching has been stopped by the time the tree arrives, the arrival
    of the tree still starts the walk: every eager blob, every nested commit
    and every secondary blob of the tree is requested from the wrapped
    service, in the order of the walk, and nothing of it is cached. *)
Theorem scheduled_walk_survives_stopPrefetch evs version evs' tree :
  let st := run init evs in
  let p := (getSnapshotTree version st).1 in
  let st1 := run (getSnapshotTree version st).2 evs' in
  let st2 := settle p (Tree (Some tree)) st1 in
  prefetchEnabled st = true →
  prefetchEnabled st1 = false →
  settled st1 !! p = None →
  storage st2 = storage st1 ++ walkCalls tree
  ∧ prefetchCache st2 = ∅
  ∧ prefetchEnabled st2 = false.
Proof.
  intros st p st1 st2 He He1 Hn.
  destruct (awaited_tree_is_walked evs version evs' tree He Hn) as [Hst1 Hw].
  fold st p st1 in Hst1, Hw.
  unfold st2. rewrite Hw.
  destruct (prefetchTree_disabled tree
              (markSettled p (Tree (Some tree)) st1) He1) as (-> & -> & ->).
  split_and!; [done| |done].
  by apply (disabled_empty _ Hst1).
Qed.

(** X4. A nested commit is resolved in two steps.  The walk asks the
    wrapped service for one version of the commit; when the versions arrive
    it asks for the snapshot tree of the first of them (of [undefined] when
    there is none); when that tree arrives and is present it is walked like a
    top-level tree.  A rejected version request is swallowed: no call, no
    cache entry and no callback comes of it. *)
Theorem nested_commit_is_resolved_then_walked evs entry versions :
  let st := run init evs in
  prefetchEnabled st = true →
  let p := length (storage st) in
  let st1 := prefetchCommit st entry in
  let st2 := settle p (Versions versions) st1 in
  storage st1 = storage st ++ [StorageGetVersions (Some entry.2) 1]
  ∧ storage st2 = storage st1 ++ [StorageGetSnapshotTree (head versions)]
  ∧ (∀ tree,
       settle (S p) (Tree (Some tree)) st2
       = prefetchTree tree (markSettled (S p) (Tree (Some tree)) st2))
  ∧ (∀ error,
       let st3 := settle p (Rejected error) st1 in
       storage st3 = storage st1
       ∧ prefetchCache st3 = prefetchCache st1
       ∧ callbacks st3 = callbacks st1).
Proof.
  intros st He p st1 st2.
  pose proof (consistent_reachable evs) as Hst. fold st in Hst.
  assert (storage st1 !! p = Some (StorageGetVersions (Some entry.2) 1)) as Hl.
  { unfold st1, prefetchCommit, p. simpl.
    by rewrite lookup_app_r, Nat.sub_diag by lia. }
  assert (settled st1 !! p = None) as Hn.
  { unfold st1, prefetchCommit, p. simpl.
    rewrite <- (Nat.add_0_r (length _)). by apply unsettled_next. }
  assert (p ∈ callbacks st1) as Hc.
  { unfold st1, prefetchCommit. simpl. apply elem_of_app. right.
    by apply list_elem_of_singleton. }
  assert (length (storage st1) = S p) as Hlen.
  { unfold st1, prefetchCommit, p. simpl. rewrite length_app. simpl. lia. }
  assert (prefetchEnabled st1 = true) as He1 by done.
  assert (settled st1 = settled st) as Hd1 by done.
  assert (storage st1 = storage st ++ [StorageGetVersions (Some entry.2) 1])
    as Hs1 by done.
  clearbody st1.
  assert (storage st2 = storage st1 ++ [StorageGetSnapshotTree (head versions)]
          ∧ settled st2 = <[p := Versions versions]> (settled st1)
          ∧ callbacks st2 = callbacks st1 ++ [S p]) as (Hs2 & Hd2 & Hc2).
  { unfold st2, settle. rewrite Hl, Hn, bool_decide_eq_true_2 by done.
    unfold getSnapshotTree. simpl. rewrite He1. simpl.
    by rewrite Hlen. }
  split_and!.
  - done.
  - done.
  - intros tree. apply (settle_walks _ (head versions)).
    + by rewrite Hs2, lookup_app_r, Hlen, Nat.sub_diag by lia.
    + rewrite Hd2, lookup_insert_ne, Hd1 by lia.
      replace (S p) with (length (storage st) + 1) by (unfold p; lia).
      by apply unsettled_next.
    + rewrite Hc2. apply elem_of_app. right. by apply list_elem_of_singleton.
  - intros error st3. unfold st3, settle. rewrite Hl, Hn.
    by destruct (bool_decide _).
Qed.

(** X5. While prefetching is enabled the wrapped service has been asked
    for a blob once if the blob is in the cache and never otherwise,
    whatever calls and settlements came before: no history makes this class
    read a blob twice. *)
Theorem storage_read_once_iff_cached evs B :
  let st := run init evs in
  prefetchEnabled st = true →
  storageReads B st ≤ 1
  ∧ (storageReads B st = 1 ↔ is_Some (prefetchCache st !! B)).
Proof.
  intros st He.
  pose proof (consistent_reachable evs) as Hst. fold st in Hst.
  rewrite (reads_counted _ Hst He).
  destruct (prefetchCache st !! B) eqn:Hc.
  - split; [lia|]. split; eauto.
  - split; [lia|]. split; [lia|]. by intros [? ?].
Qed.

(** X6. The cache never mixes blobs up.  In every reachable state a cached
    promise is the promise the wrapped service returned for a read of the
    very blob it is cached under, prefetching is enabled, and no two blobs
    share a promise. *)
Theorem cached_promise_belongs_to_its_blob evs B p :
  let st := run init evs in
  prefetchCache st !! B = Some p →
  storage st !! p = Some (StorageRead B)
  ∧ prefetchEnabled st = true
  ∧ ∀ B', prefetchCache st !! B' = Some p → B' = B.
Proof.
  intros st Hc.
  pose proof (consistent_reachable evs) as Hst. fold st in Hst.
  pose proof (cache_is_read _ Hst _ _ Hc) as Hr.
  split_and!; [done| |].
  - destruct (prefetchEnabled st) eqn:He; [done|].
    rewrite (disabled_empty _ Hst He) in Hc. by rewrite lookup_empty in Hc.
  - intros B' Hc'. apply (cache_is_read _ Hst) in Hc'. congruence.
Qed.

(** X7. Nothing is evicted or replaced while prefetching stays enabled.
    Whatever happens after a blob was cached, calls of any method and
    settlements of any promise, fulfilled or rejected, [read] of the blob
    keeps returning the same promise and calls nothing. *)
Theorem cached_promise_is_never_replaced evs B p evs' :
  let st := run init evs in
  prefetchCache st !! B = Some p →
  let st' := run st evs' in
  prefetchEnabled st' = true →
  prefetchCache st' !! B = Some p ∧ read B st' = (p, st').
Proof.
  intros st Hc st' He.
  assert (prefetchCache st' !! B = Some p) as Hc' by by apply cached_run.
  split; [done|]. by apply cachedRead_hit.
Qed.


Lemma prefetched_blobs_are_served_from_cache_witness :
  let st2 :=
    run init [CallRead "h1"; CallGetSnapshotTree None; CallRead "x";
              Settle 1 (Tree (Some nestedTree))] in
  ∃ q, prefetchCache st2 !! "d1" = Some q
       ∧ read "d1" st2 = (q, st2)
       ∧ storageReads "d1" st2 = 1.
Proof.
  assert ("d1" ∈ blobsOf nestedTree) as Hin.
  { apply (bool_decide_unpack ("d1" ∈ blobsOf nestedTree)).
    vm_compute. exact I. }
  exact (prefetched_blobs_are_served_from_cache
           [CallRead "h1"] None [CallRead "x"] nestedTree "d1"
           eq_refl eq_refl Hin).
Defined.

Lemma scheduled_walk_survives_stopPrefetch_witness :
  let st2 :=
    run init [CallRead "a1"; CallGetSnapshotTree None; CallStopPrefetch;
              Settle 1 (Tree (Some nestedTree))] in
  storage st2
  = [StorageRead "a1"; StorageGetSnapshotTree None; StorageRead "a1";
     StorageGetVersions (Some "c1") 1; StorageRead "h1"; StorageRead "d1"]
  ∧ prefetchCache st2 = ∅.
Proof.
  pose proof (scheduled_walk_survives_stopPrefetch [CallRead "a1"] None
                [CallStopPrefetch] nestedTree eq_refl eq_refl eq_refl)
    as (H1 & H2 & _).
  split; [exact H1|exact H2].
Defined.

Lemma nested_commit_is_resolved_then_walked_witness :
  let st1 := prefetchCommit (run init [CallRead "a1"]) ("module", "c1") in
  let st2 := settle 1 (Versions [{| id := "v1"; treeId := "t1" |}]) st1 in
  storage st2
  = [StorageRead "a1"; StorageGetVersions (Some "c1") 1;
     StorageGetSnapshotTree (Some {| id := "v1"; treeId := "t1" |})]
  ∧ settle 2 (Tree (Some nestedTree)) st2
    = prefetchTree nestedTree (markSettled 2 (Tree (Some nestedTree)) st2).
Proof.
  pose proof (nested_commit_is_resolved_then_walked [CallRead "a1"]
                ("module", "c1") [{| id := "v1"; treeId := "t1" |}] eq_refl)
    as (_ & H2 & H3 & _).
  split; [exact H2|exact (H3 nestedTree)].
Defined.

Lemma storage_read_once_iff_cached_witness :
  let st := run init [CallRead "b"; CallRead "b"; Settle 0 (Blob (Some "x"));
                      CallRead "b"] in
  storageReads "b" st ≤ 1
  ∧ (storageReads "b" st = 1 ↔ is_Some (prefetchCache st !! "b")).
Proof.
  exact (storage_read_once_iff_cached
           [CallRead "b"; CallRead "b"; Settle 0 (Blob (Some "x"));
            CallRead "b"] "b" eq_refl).
Defined.

Lemma cached_promise_belongs_to_its_blob_witness :
  let st := run init [CallRead "a"; CallRead "b"] in
  storage st !! 1 = Some (StorageRead "b")
  ∧ prefetchEnabled st = true
  ∧ ∀ B', prefetchCache st !! B' = Some 1 → B' = "b".
Proof.
  exact (cached_promise_belongs_to_its_blob [CallRead "a"; CallRead "b"]
           "b" 1 eq_refl).
Defined.

Lemma cached_promise_is_never_replaced_witness :
  let st' := run (run init [CallRead "b"])
               [Settle 0 (Rejected "404"); CallGetSnapshotTree None;
                Settle 1 (Tree (Some nestedTree)); CallRead "b"] in
  prefetchCache st' !! "b" = Some 0 ∧ read "b" st' = (0, st').
Proof.
  exact (cached_promise_is_never_replaced [CallRead "b"] "b" 0
           [Settle 0 (Rejected "404"); CallGetSnapshotTree None;
            Settle 1 (Tree (Some nestedTree)); CallRead "b"]
           eq_refl eq_refl).
Defined.

End PrefetchFacts.

(** ** Facts about objects used as maps *)

Module JsObjectFacts.
Import JsObject.

Section Object.
Context {V : Type}.
Implicit Types (o : list (string * V)) (k : string) (v : V).

Lemma get_set_eq o k v : get (set o k v) k = Some v.
Proof.
  induction o as [|[k' v'] o IH]; simpl; [by rewrite decide_True|].
  destruct (decide (k = k')) as [->|Hne]; simpl.
  - by rewrite decide_True.
  - by rewrite decide_False.
Qed.

Lemma get_set_ne o k k' v : k ≠ k' → get (set o k v) k' = get o k'.
Proof.
  intros Hne. induction o as [|[k0 v0] o IH]; simpl.
  - by rewrite decide_False.
  - destruct (decide (k = k0)) as [->|Hk]; simpl.
    + by rewrite !decide_False.
    + by rewrite IH.
Qed.

Lemma get_set o k k' v :
  get (set o k v) k' = if decide (k = k') then Some v else get o k'.
Proof.
  case_decide as Hk; [subst; apply get_set_eq|by apply get_set_ne].
Qed.


Lemma has_set o k k' v : has (set o k v) k' = bool_decide (k = k') || has o k'.
Proof.
  unfold has. rewrite get_set. case_decide.
  - by rewrite bool_decide_eq_true_2.
  - by rewrite bool_decide_eq_false_2.
Qed.

Lemma get_None_keys o k : get o k = None ↔ k ∉ keys o.
Proof.
  unfold keys. induction o as [|[k' v'] o IH]; simpl.
  - split; [intros _; apply not_elem_of_nil|done].
  - rewrite not_elem_of_cons. case_decide as Hk.
    + split; [done|]. by intros [Hne _].
    + rewrite IH. split; [by intros ?|by intros [_ ?]].
Qed.

Lemma keys_set o k v :
  keys (set o k v) = if has o k then keys o else keys o ++ [k].
Proof.
  unfold has, keys. induction o as [|[k' v'] o IH]; simpl; [done|].
  case_decide as Hk; simpl; [done|].
  rewrite IH. by destruct (get o k).
Qed.

Lemma NoDup_keys_set o k v : NoDup (keys o) → NoDup (keys (set o k v)).
Proof.
  intros Hnd. rewrite keys_set. unfold has.
  destruct (get o k) eqn:Hg; [done|].
  apply get_None_keys in Hg.
  apply NoDup_app. split_and!; [done| |apply NoDup_singleton].
  intros x Hx ->%list_elem_of_singleton. done.
Qed.

(** Visiting the keys of an object and reading each gives its values. *)
Lemma get_keys o :
  NoDup (keys o) → omap (get o) (keys o) = map snd o.
Proof.
  unfold keys. induction o as [|[k v] o IH]; simpl; [done|].
  intros [Hk Hnd]%NoDup_cons. rewrite decide_True by done. f_equal.
  rewrite <- IH by done.
  clear IH Hnd. induction (map fst o) as [|k' ks IHks]; simpl; [done|].
  apply not_elem_of_cons in Hk as [Hne Hk].
  rewrite decide_False by done. rewrite IHks by done. done.
Qed.

Lemma set_same o k v : get o k = Some v → set o k v = o.
Proof.
  induction o as [|[k' v'] o IH]; simpl; [done|].
  case_decide as Hk; [by intros [= ->]|]. intros H. by rewrite IH.
Qed.

Lemma has_keys o k : has o k = bool_decide (k ∈ keys o).
Proof.
  unfold has. destruct (get o k) eqn:Hg.
  - symmetry. apply bool_decide_eq_true. 
    destruct (decide (k ∈ keys o)) as [|Hn]; [done|].
    apply get_None_keys in Hn. congruence.
  - symmetry. apply bool_decide_eq_false. by apply get_None_keys.
Qed.

Lemma Forall_set (P : string * V → Prop) o k v :
  Forall P o → P (k, v) → Forall P (set o k v).
Proof.
  intros Ho Hkv. induction Ho as [|[k' v'] o Hx Ho IH]; simpl.
  - by constructor.
  - case_decide as Hk; [subst|]; by constructor.
Qed.

Lemma get_elem_of o k v : NoDup (keys o) → (k, v) ∈ o → get o k = Some v.
Proof.
  unfold keys. induction o as [|[k' v'] o IH]; simpl.
  - by intros _ ?%elem_of_nil.
  - intros [Hk Hnd]%NoDup_cons [[= -> ->]|Hin]%elem_of_cons.
    + by rewrite decide_True.
    + rewrite decide_False; [by apply IH|].
      intros ->. apply Hk. apply list_elem_of_fmap. by exists (k', v).
Qed.

End Object.
End JsObjectFacts.

(** ** Facts about DocumentService: routing *)

Module RoutingFacts.
Import JsObject Json DocumentService JsObjectFacts.

Lemma registerAll_snoc st regs event connection :
  registerAll st (regs ++ [(event, connection)])
  = registerForEvent event connection (registerAll st regs).
Proof. unfold registerAll. by rewrite foldl_app. Qed.

Lemma subscriber_registerForEvent st event connection event' documentId clientId :
  subscriber (registerForEvent event connection st) event' documentId clientId
  = if decide (event = event'
               ∧ DeltaConnection.documentId connection = documentId
               ∧ DeltaConnection.clientId connection = clientId)
    then Some connection
    else subscriber st event' documentId clientId.
Proof.
  unfold subscriber, registerForEvent. simpl.
  rewrite get_set.
  destruct (decide (event = event')) as [<-|Hev]; simpl.
  - set (objectMap := default [] (get _ event)).
    assert (get (eventMap st) event ≫= (λ om, get om documentId
              ≫= (λ cm, get cm clientId))
            = get objectMap documentId ≫= (λ cm, get cm clientId)) as ->.
    { unfold objectMap, has. destruct (get (eventMap st) event) eqn:Hg; simpl.
      - by rewrite Hg.
      - by rewrite get_set_eq. }
    clearbody objectMap. rewrite get_set.
    destruct (decide (DeltaConnection.documentId connection = documentId))
      as [<-|Hdoc]; simpl.
    + rewrite get_set. unfold has.
      destruct (get objectMap (DeltaConnection.documentId connection))
        as [cm|] eqn:Hg; simpl.
      * rewrite Hg. simpl. repeat case_decide; intuition congruence.
      * rewrite get_set_eq. simpl. repeat case_decide; intuition congruence.
    + rewrite decide_False by tauto.
      unfold has. destruct (get objectMap _) eqn:Hg; [done|].
      by rewrite get_set_ne.
  - rewrite decide_False by tauto.
    unfold has. destruct (get (eventMap st) event) eqn:Hg; [done|].
    simpl. by rewrite get_set_ne.
Qed.

Lemma listeners_registerForEvent st event connection :
  listeners (registerForEvent event connection st)
  = if has (eventMap st) event then listeners st else listeners st ++ [event].
Proof. unfold registerForEvent. simpl. by destruct (has (eventMap st) event). Qed.

Lemma has_eventMap_registerForEvent st event connection event' :
  has (eventMap (registerForEvent event connection st)) event'
  = bool_decide (event = event') || has (eventMap st) event'.
Proof.
  unfold registerForEvent. simpl. rewrite has_set.
  destruct (has (eventMap st) event) eqn:Hh; simpl; [done|].
  rewrite has_set. by destruct (bool_decide (event = event')).
Qed.

Lemma installed_registerForEvent st event connection event' :
  installed event' (registerForEvent event connection st)
  = installed event' st
    + (if has (eventMap st) event then 0
       else if decide (event = event') then 1 else 0).
Proof.
  unfold installed. rewrite listeners_registerForEvent.
  destruct (has (eventMap st) event); [lia|].
  rewrite filter_app, length_app, filter_cons, filter_nil.
  by case_decide.
Qed.

(** A listener is installed for exactly the events that have an entry in
    [eventMap], and these are the events registered so far. *)
Lemma listening_registerAll regs event :
  let st := registerAll init regs in
  has (eventMap st) event = bool_decide (event ∈ regs.*1)
  ∧ installed event st = if has (eventMap st) event then 1 else 0.
Proof.
  induction regs as [|[e c] regs IH] using rev_ind; simpl.
  - by split.
  - destruct IH as [IH1 IH2].
    rewrite registerAll_snoc, has_eventMap_registerForEvent,
      installed_registerForEvent, IH2, fmap_app. simpl. split.
    + rewrite IH1. apply eq_true_iff_eq.
      rewrite orb_true_iff, !bool_decide_eq_true, elem_of_app,
        list_elem_of_singleton.
      split; [intros [?|?]; auto|intros [?|?]; auto].
    + destruct (decide (e = event)) as [->|Hne].
      * rewrite bool_decide_eq_true_2 by done. simpl.
        destruct (has (eventMap (registerAll init regs)) event); simpl; lia.
      * rewrite bool_decide_eq_false_2 by done. simpl.
        destruct (has (eventMap (registerAll init regs)) e),
          (has (eventMap (registerAll init regs)) event); simpl; lia.
Qed.

Lemma mostRecent_snoc regs event connection event' documentId clientId :
  mostRecent (regs ++ [(event, connection)]) event' documentId clientId
  = if decide (event = event'
               ∧ DeltaConnection.documentId connection = documentId
               ∧ DeltaConnection.clientId connection = clientId)
    then Some connection
    else mostRecent regs event' documentId clientId.
Proof. unfold mostRecent. by rewrite foldl_app. Qed.


End RoutingFacts.

(** ** Facts about payloads and deep copies *)

Module JsonFacts.
Import Json.

Implicit Types (lo hi mid l n : nat) (h : heap) (v : value).

Lemma within_weaken lo hi lo' hi' v :
  lo' ≤ lo → hi ≤ hi' → within lo hi v → within lo' hi' v.
Proof. destruct v; simpl; lia. Qed.

Lemma closed_weaken h lo mid hi :
  lo ≤ mid ≤ hi → closed h lo mid → closed h mid hi → closed h lo hi.
Proof.
  intros Hm H1 H2 l o Hl Ho.
  destruct (decide (l < mid)).
  - eapply Forall_impl; [apply (H1 l o); [lia|done]|].
    intros kv. apply within_weaken; lia.
  - eapply Forall_impl; [apply (H2 l o); [lia|done]|].
    intros kv. apply within_weaken; lia.
Qed.

Lemma closed_prefix h h' lo hi :
  h `prefix_of` h' → hi ≤ length h → closed h lo hi → closed h' lo hi.
Proof.
  intros [k ->] Hhi Hc l o Hl Ho. apply (Hc l o Hl).
  by rewrite lookup_app_l in Ho by lia.
Qed.

Lemma closed_nil h lo : closed h lo lo.
Proof. intros l o Hl. lia. Qed.

(** Reading only ever looks at objects that exist. *)
Lemma snapshot_more n : ∀ h h2 v t,
  (∀ l o, h !! l = Some o → h2 !! l = Some o) →
  snapshot n h v = Some t → snapshot n h2 v = Some t.
Proof.
  induction n as [|n IH]; intros h h2 v t Hh Hs; [done|].
  destruct v as [| | | |l]; simpl in *; try done.
  destruct (h !! l) as [o|] eqn:Hl; simpl in *; [|done].
  rewrite (Hh _ _ Hl). simpl.
  destruct (mapM _ (props o)) as [fields|] eqn:Hm; simpl in *; [|done].
  erewrite mapM_Some_2; [done|].
  apply mapM_Some_1 in Hm. eapply Forall2_impl; [done|].
  intros [k w] [k' d]. simpl.
  destruct (snapshot n h w) as [d'|] eqn:Hw; simpl; [|done].
  by rewrite (IH _ _ _ _ Hh Hw).
Qed.

Lemma snapshot_prefix n h h2 v t :
  h `prefix_of` h2 → snapshot n h v = Some t → snapshot n h2 v = Some t.
Proof.
  intros Hp. apply snapshot_more. intros l o Hl.
  by eapply prefix_lookup_Some.
Qed.

(** The locations a value in a closed range leads to are in the range. *)
Lemma reach_within h lo hi v l :
  closed h lo hi → within lo hi v → reach h v l → lo ≤ l < hi.
Proof.
  intros Hc Hv Hr. induction Hr as [l|l o k w l' Ho Hin Hr IH]; [done|].
  apply IH. pose proof (Hc l o Hv Ho) as Hall.
  rewrite Forall_forall in Hall. by apply (Hall (k, w)).
Qed.

Lemma cloneProps_ok n h0 :
  (∀ v h t, snapshot n h v = Some t →
     ∃ r, cloneDeep n v h = Some r ∧ copyOf n h t r) →
  ∀ ps h fields,
    h0 `prefix_of` h →
    closed h (length h0) (length h) →
    mapM (λ kv, pair kv.1 <$> snapshot n h kv.2) ps = Some fields →
    ∃ ps' h',
      cloneProps (cloneDeep n) ps h = Some (ps', h')
      ∧ h `prefix_of` h'
      ∧ Forall (λ kv, within (length h0) (length h') kv.2) ps'
      ∧ closed h' (length h0) (length h')
      ∧ mapM (λ kv, pair kv.1 <$> snapshot n h' kv.2) ps' = Some fields.
Proof.
  intros IH ps. induction ps as [|[k v] ps IHps]; intros h fields Hp Hc Hm.
  - simpl in *. exists [], h. by simplify_eq.
  - simpl in Hm.
    destruct (snapshot n h v) as [d|] eqn:Hv; simpl in Hm; [|done].
    destruct (mapM _ ps) as [fs|] eqn:Hps; simpl in Hm; [|done].
    simplify_eq.
    destruct (IH v h d Hv) as ([v' h1] & Hclone & Hp1 & Hw1 & Hc1 & Hs1).
    simpl in *.
    assert (length h0 ≤ length h ≤ length h1) as Hlen.
    { split; by apply prefix_length. }
    assert (closed h1 (length h0) (length h1)) as Hc01.
    { apply (closed_weaken _ _ (length h)); [done| |done].
      by apply (closed_prefix h). }
    destruct (IHps h1 fs) as (ps' & h2 & Hclones & Hp2 & Hw2 & Hc2 & Hs2).
    { by etrans. }
    { done. }
    { erewrite mapM_Some_2; [done|]. apply mapM_Some_1 in Hps.
      eapply Forall2_impl; [done|]. intros [k1 w1] [k2 d2]. simpl.
      destruct (snapshot n h w1) as [d'|] eqn:Hw; simpl; [|done].
      by rewrite (snapshot_prefix _ _ _ _ _ Hp1 Hw). }
    exists ((k, v') :: ps'), h2. rewrite Hclone. simpl. rewrite Hclones. simpl.
    pose proof (prefix_length _ _ Hp2) as Hlen2.
    split_and!; try done.
    + by etrans.
    + constructor; [|done]. simpl.
      eapply within_weaken; [| |done]; lia.
    + by rewrite (snapshot_prefix _ _ _ _ _ Hp2 Hs1), Hs2.
Qed.

(** Deep copying succeeds on data that can be read, and gives a copy. *)
Lemma cloneDeep_ok n : ∀ v h t,
  snapshot n h v = Some t →
  ∃ r, cloneDeep n v h = Some r ∧ copyOf n h t r.
Proof.
  induction n as [|n IH]; intros v h t Hs; [done|].
  destruct v as [| | | |l]; simpl in *;
    try (eexists; split; [done|]; split_and!; simpl; try done;
         apply closed_nil).
  destruct (h !! l) as [o|] eqn:Hl; simpl in *; [|done].
  destruct (mapM _ (props o)) as [fields|] eqn:Hm; simpl in Hs; [|done].
  simplify_eq.
  destruct (cloneProps_ok n h IH (props o) h fields)
    as (ps' & h1 & Hclones & Hp1 & Hw1 & Hc1 & Hs1);
    [done|apply closed_nil|done|].
  rewrite Hclones. simpl. eexists. split; [done|].
  pose proof (prefix_length _ _ Hp1) as Hlen.
  split_and!; simpl.
  - by apply prefix_app_r.
  - rewrite length_app. simpl. lia.
  - rewrite length_app. simpl. intros l' o' Hl' Ho'.
    destruct (decide (l' < length h1)).
    + rewrite lookup_app_l in Ho' by done.
      eapply Forall_impl; [apply (Hc1 l' o'); [lia|done]|].
      intros kv. apply within_weaken; lia.
    + assert (l' = length h1) as -> by lia.
      rewrite lookup_app_r, Nat.sub_diag in Ho' by done.
      simplify_eq/=. eapply Forall_impl; [done|].
      intros kv. apply within_weaken; lia.
  - rewrite lookup_app_r, Nat.sub_diag by done. simpl.
    erewrite mapM_Some_2; [done|]. apply mapM_Some_1 in Hs1.
    eapply Forall2_impl; [done|]. intros [k1 w1] [k2 d2]. simpl.
    destruct (snapshot n h1 w1) as [d'|] eqn:Hw; simpl; [|done].
    by rewrite (snapshot_prefix n h1 (h1 ++ [_]) w1 d'
                  (prefix_app_r _ _ _ (reflexivity _)) Hw).
Qed.

End JsonFacts.

(** ** Facts about DocumentService: delivery *)

Module DeliveryFacts.
Import JsObject Json DocumentService JsObjectFacts JsonFacts RoutingFacts.

Implicit Types (lo hi l n i j : nat) (h : heap) (ds : list Delivery).

Lemma registeredFor_registerForEvent st event connection event' documentId :
  registeredFor (registerForEvent event connection st) event' documentId
  = if decide (event = event'
               ∧ DeltaConnection.documentId connection = documentId)
    then set (registeredFor st event' documentId)
           (DeltaConnection.clientId connection) connection
    else registeredFor st event' documentId.
Proof.
  unfold registeredFor, registerForEvent. simpl.
  rewrite get_set.
  destruct (decide (event = event')) as [<-|Hev]; simpl.
  - set (objectMap := default [] (get _ event)).
    assert (get (eventMap st) event ≫= (λ om, get om documentId)
            = get objectMap documentId) as ->.
    { unfold objectMap, has. destruct (get (eventMap st) event) eqn:Hg; simpl.
      - by rewrite Hg.
      - by rewrite get_set_eq. }
    clearbody objectMap. rewrite get_set.
    destruct (decide (DeltaConnection.documentId connection = documentId))
      as [<-|Hdoc]; simpl.
    + rewrite decide_True by done. unfold has.
      destruct (get objectMap (DeltaConnection.documentId connection))
        as [cm|] eqn:Hg; simpl.
      * by rewrite Hg.
      * by rewrite get_set_eq.
    + rewrite decide_False by tauto.
      unfold has. destruct (get objectMap _) eqn:Hg; [done|].
      by rewrite get_set_ne.
  - rewrite decide_False by tauto.
    unfold has. destruct (get (eventMap st) event) eqn:Hg; [done|].
    simpl. by rewrite get_set_ne.
Qed.

Lemma registeredFor_NoDup regs event documentId :
  NoDup (keys (registeredFor (registerAll init regs) event documentId)).
Proof.
  induction regs as [|[e c] regs IH] using rev_ind; [apply NoDup_nil_2|].
  rewrite registerAll_snoc, registeredFor_registerForEvent.
  case_decide; [by apply NoDup_keys_set|done].
Qed.

Lemma subscriber_registeredFor st event documentId clientId :
  subscriber st event documentId clientId
  = get (registeredFor st event documentId) clientId.
Proof.
  unfold subscriber, registeredFor.
  destruct (get (eventMap st) event) as [om|]; simpl; [|done].
  by destruct (get om documentId).
Qed.

Lemma get_Some_values {V} (o : list (string * V)) k v :
  get o k = Some v → v ∈ o.*2.
Proof.
  induction o as [|[k' v'] o IH]; simpl; [done|].
  case_decide; [intros [= ->]; left|right; auto].
Qed.

Lemma handleMessage_registeredFor dispatchEvent n st event documentId
    message h :
  handleMessage dispatchEvent n st event documentId message h
  = routeToClients dispatchEvent n event (registeredFor st event documentId)
      (keys (registeredFor st event documentId)) message h.
Proof.
  unfold handleMessage, registeredFor.
  destruct (get (eventMap st) event) as [om|]; simpl; [|done].
  by destruct (get om documentId).
Qed.

Lemma delivered_earlier dispatchEvent n event t h0 h h' d :
  length h0 ≤ length h →
  delivered dispatchEvent n event t h h' d →
  delivered dispatchEvent n event t h0 h' d.
Proof.
  intros Hle (? & ? & Hr & ? & ?). split_and!; try done.
  intros l Hl. apply Hr in Hl. lia.
Qed.

(** The loop of [handleMessage]: every connection found is called with a
    deep copy of the message made just before the call; no object that
    existed before a copy was made is changed by the rest of the loop. *)
Lemma routeToClients_ok dispatchEvent n event connectionMap message t :
  confined dispatchEvent →
  ∀ clientIds h,
    snapshot n h message = Some t →
    ∃ ds h',
      routeToClients dispatchEvent n event connectionMap clientIds message h
      = Some (ds, h')
      ∧ map target ds = omap (get connectionMap) clientIds
      ∧ length h ≤ length h'
      ∧ (∀ l, l < length h → h' !! l = h !! l)
      ∧ Forall (delivered dispatchEvent n event t h h') ds
      ∧ inOrder dispatchEvent ds.
Proof.
  intros Hconf. induction clientIds as [|clientId rest IH]; intros h Hs; simpl.
  - exists [], h. split_and!; simpl; done.
  - destruct (get connectionMap clientId) as [connection|]; [|by apply IH].
    destruct (cloneDeep_ok n message h t Hs)
      as ([clone h1] & -> & Hp1 & Hw1 & Hc1 & Hs1). simpl in *.
    pose proof (prefix_length _ _ Hp1) as Hlen1.
    destruct (Hconf connection event clone h1) as [Hlen1' Hframe].
    set (h1' := dispatchEvent connection event clone h1) in *.
    assert (∀ l, l < length h → h1' !! l = h !! l) as Hold.
    { intros l Hl. rewrite Hframe; [|lia|].
      - destruct Hp1 as [k ->]. by rewrite lookup_app_l.
      - intros Hr. apply (reach_within h1 (length h) (length h1)) in Hr;
          [lia|done..]. }
    destruct (IH h1') as (ds & h2 & -> & Htargets & Hlen2 & Hkeep & Hall & Hord).
    { apply (snapshot_more n h); [|done]. intros l o Hl.
      rewrite Hold; [done|]. by apply lookup_lt_Some in Hl. }
    simpl. eexists _, h2. split; [done|].
    split_and!; simpl.
    + by rewrite Htargets.
    + lia.
    + intros l Hl. rewrite Hkeep by lia. by apply Hold.
    + constructor.
      * split_and!; try done.
        intros l Hr. by apply (reach_within h1 (length h) (length h1)) in Hr.
      * eapply Forall_impl; [done|]. intros d.
        apply delivered_earlier. lia.
    + split; [|done]. eapply Forall_impl; [done|].
      intros d (_ & _ & Hr & _) l Hl. apply Hr in Hl.
      unfold heapAtReturn. simpl. fold h1'. lia.
Qed.

Lemma inOrder_lookup dispatchEvent ds i j di dj l :
  inOrder dispatchEvent ds → i < j →
  ds !! i = Some di → ds !! j = Some dj →
  reach (heapAtCall dj) (payload dj) l →
  length (heapAtReturn dispatchEvent di) ≤ l.
Proof.
  revert i j. induction ds as [|d ds IH]; intros i j Hord Hij Hi Hj Hr;
    [done|].
  destruct Hord as [Hd Hord]. destruct j as [|j]; [lia|]. simpl in Hj.
  destruct i as [|i]; simpl in Hi.
  - simplify_eq. rewrite Forall_forall in Hd.
    apply (Hd dj); [|done]. by apply list_elem_of_lookup_2 in Hj.
  - apply (IH i j); [done|lia|done..].
Qed.

(** The handler [scribble] changes the object its payload refers to and
    nothing else. *)
Lemma scribble_confined : confined scribble.
Proof.
  intros connection event v h. destruct v as [| | | |l0]; simpl; try done.
  rewrite length_insert. split; [done|].
  intros l Hl Hr. apply list_lookup_insert_ne. intros ->.
  apply Hr. constructor.
Qed.



(** *** Who is called, and in what order *)

Lemma subscriber_mostRecent regs event documentId clientId :
  subscriber (registerAll init regs) event documentId clientId
  = mostRecent regs event documentId clientId.
Proof.
  induction regs as [|[e c] regs IH] using rev_ind; [done|].
  by rewrite registerAll_snoc, subscriber_registerForEvent, mostRecent_snoc, IH.
Qed.

Lemma firstRegistered_snoc regs event connection event' documentId :
  firstRegistered (regs ++ [(event, connection)]) event' documentId
  = if decide (event = event'
               ∧ DeltaConnection.documentId connection = documentId)
    then
      if decide (DeltaConnection.clientId connection
                 ∈ firstRegistered regs event' documentId)
      then firstRegistered regs event' documentId
      else firstRegistered regs event' documentId
             ++ [DeltaConnection.clientId connection]
    else firstRegistered regs event' documentId.
Proof. unfold firstRegistered. by rewrite foldl_app. Qed.

(** The connections stored for an event and a document are stored under
    their own client id, belong to that document, and are listed in the
    order of first registration. *)
Lemma registeredFor_table regs event documentId :
  keys (registeredFor (registerAll init regs) event documentId)
  = firstRegistered regs event documentId
  ∧ Forall (λ kc, DeltaConnection.documentId kc.2 = documentId
                  ∧ DeltaConnection.clientId kc.2 = kc.1)
      (registeredFor (registerAll init regs) event documentId).
Proof.
  induction regs as [|[e c] regs [IH1 IH2]] using rev_ind; [by split|].
  rewrite registerAll_snoc, registeredFor_registerForEvent,
    firstRegistered_snoc.
  case_decide as Hm; [|done]. destruct Hm as [-> Hd]. split.
  - rewrite keys_set, has_keys, IH1.
    case_decide; [by rewrite bool_decide_eq_true_2|].
    by rewrite bool_decide_eq_false_2.
  - by apply Forall_set.
Qed.

Lemma routeToClients_targets dispatchEvent n event connectionMap message :
  ∀ clientIds h ds h',
    routeToClients dispatchEvent n event connectionMap clientIds message h
    = Some (ds, h') →
    map target ds = omap (get connectionMap) clientIds
    ∧ Forall (λ d, eventName d = event) ds.
Proof.
  induction clientIds as [|clientId rest IH]; intros h ds h' H; simpl in *.
  - by simplify_eq.
  - destruct (get connectionMap clientId) as [connection|]; [|by eapply IH].
    destruct (cloneDeep n message h) as [[clone h1]|]; [|done]. simpl in H.
    destruct (routeToClients _ _ _ _ rest _ _) as [[ds' h2]|] eqn:Hr; [|done].
    simplify_eq/=. destruct (IH _ _ _ Hr) as [-> ?]. split; [done|].
    by constructor.
Qed.


Lemma registerForEvent_registered event connection st objectMap connectionMap :
  get (eventMap st) event = Some objectMap →
  get objectMap (DeltaConnection.documentId connection) = Some connectionMap →
  get connectionMap (DeltaConnection.clientId connection) = Some connection →
  registerForEvent event connection st = st.
Proof.
  intros Hom Hcm Hc. unfold registerForEvent, has.
  rewrite Hom. simpl. rewrite Hom. simpl. rewrite Hcm. simpl.
  rewrite Hcm. simpl.
  rewrite (set_same connectionMap), (set_same objectMap), set_same by done.
  by destruct st.
Qed.

(** X14. Registering a connection a second time for the same event
    changes nothing: no listener is added and the routing table stays as it
    is, so the connection is still delivered to once. *)
Theorem registerForEvent_is_idempotent event connection st :
  registerForEvent event connection (registerForEvent event connection st)
  = registerForEvent event connection st.
Proof.
  eapply registerForEvent_registered.
  - unfold registerForEvent. simpl. apply get_set_eq.
  - apply get_set_eq.
  - apply get_set_eq.
Qed.


End DeliveryFacts.

(** ** Facts about DocumentService: connect *)

Module ConnectFacts.
Import DocumentService.

Ltac unfold_connect :=
  unfold keysSettled, headerSettled, connectAck, deltasSettled, start,
    requestPendingDeltas, allResolved, oneRejected, assemble,
    deltasOutstanding, withResult, withPhase, withHeaderP, withConnectionP,
    withPendingDeltasP, call in *.

Ltac connect_cases :=
  unfold_connect; simpl in *; repeat (case_match; simplify_eq/=).

(** In the phase [Started] an event goes to its handler. *)
Lemma connectStep_started st ev :
  phase st = Started →
  connectStep st ev
  = match ev with
    | KeysSettled _ => st
    | HeaderSettled outcome => headerSettled outcome st
    | ConnectAck error response => connectAck error response st
    | DeltasSettled outcome => deltasSettled outcome st
    end.
Proof. intros H. unfold connectStep. rewrite H. by destruct ev. Qed.

Lemma connectStep_keysFailed st ev :
  phase st = KeysFailed → connectStep st ev = st.
Proof. intros H. unfold connectStep. rewrite H. by destruct ev. Qed.

Lemma connectStep_awaitingKeys st ev :
  phase st = AwaitingKeys →
  connectStep st ev
  = match ev with KeysSettled keys => keysSettled keys st | _ => st end.
Proof. intros H. unfold connectStep. rewrite H. by destruct ev. Qed.

(** *** Once past the keys, an invocation stays there, and what has settled
    stays settled *)

Lemma started_step st ev : phase st = Started → phase (connectStep st ev) = Started.
Proof.
  intros H. rewrite connectStep_started by done.
  destruct ev; connect_cases; done.
Qed.

Lemma result_step st ev :
  phase st = Started → result st ≠ Pending →
  result (connectStep st ev) = result st.
Proof.
  intros H1 H2. rewrite connectStep_started by done.
  destruct ev; connect_cases; done.
Qed.

Lemma result_run evs : ∀ st,
  phase st = Started → result st ≠ Pending →
  result (connectRun st evs) = result st.
Proof.
  induction evs as [|ev evs IH]; simpl; [done|].
  intros st H1 H2. rewrite IH.
  - by apply result_step.
  - by apply started_step.
  - by rewrite result_step.
Qed.

Lemma connectionP_step st ev :
  phase st = Started → connectionP st ≠ Pending →
  connectionP (connectStep st ev) = connectionP st.
Proof.
  intros H1 H2. rewrite connectStep_started by done.
  destruct ev; connect_cases; done.
Qed.

Lemma connectionP_run evs : ∀ st,
  phase st = Started → connectionP st ≠ Pending →
  connectionP (connectRun st evs) = connectionP st.
Proof.
  induction evs as [|ev evs IH]; simpl; [done|].
  intros st H1 H2. rewrite IH.
  - by apply connectionP_step.
  - by apply started_step.
  - by rewrite connectionP_step.
Qed.

(** *** While the handshake is under way *)

Ltac solve_pending :=
  first
    [ done
    | split_and!; done
    | left; split_and!; done
    | right; eexists; split; [done|]; (by left) || (by right) ].

Lemma handshakePending_connect id version connectFlag encrypted :
  handshakePending (connect id version connectFlag encrypted).
Proof.
  destruct encrypted, version; split; cbn; intros; solve_pending.
Qed.

Ltac use_pending H2 H3 :=
  try (specialize (H3 eq_refl); simplify_eq);
  try (destruct (H2 eq_refl eq_refl) as [(? & ? & ?)|(? & ? & [?|?])];
       simplify_eq).

Lemma handshakePending_keysSettled keys st :
  phase st = AwaitingKeys →
  handshakePending st → handshakePending (keysSettled keys st).
Proof.
  intros Hph [H1 H2 H3]. destruct (H1 Hph) as (Hr & Hh & Hc & Hd).
  destruct st as [id v enc ph hP cP dP r cs]. simpl in *. subst.
  destruct keys as [[]|], v; split; simpl; intros; solve_pending.
Qed.

Lemma handshakePending_headerSettled outcome st :
  phase st = Started →
  handshakePending st → handshakePending (headerSettled outcome st).
Proof.
  intros Hph [H1 H2 H3].
  destruct st as [id v enc ph hP cP dP r cs]. simpl in *. subst.
  destruct hP; [|done..]. specialize (H3 eq_refl). subst.
  destruct outcome, r; split; simpl; intros; simplify_eq;
    use_pending H2 H3; solve_pending.
Qed.

Lemma handshakePending_connectAck error response st :
  phase st = Started →
  handshakePending st → handshakePending (connectAck error response st).
Proof.
  intros Hph [H1 H2 H3].
  destruct st as [id v enc ph hP cP dP r cs]. simpl in *. subst.
  destruct cP; [|done..].
  destruct error; split; simpl; intros; connect_cases; simplify_eq;
    try done; by apply H3.
Qed.

Lemma handshakePending_deltasSettled outcome st :
  phase st = Started →
  handshakePending st → handshakePending (deltasSettled outcome st).
Proof.
  intros Hph [H1 H2 H3].
  destruct st as [id v enc ph hP cP dP r cs]. simpl in *. subst.
  unfold deltasSettled, deltasOutstanding. simpl.
  destruct hP; [done| |done]. destruct dP; [|done..].
  destruct outcome, cP, r; split; simpl; intros; simplify_eq;
    use_pending H2 H3; solve_pending.
Qed.

Lemma handshakePending_step st ev :
  handshakePending st → handshakePending (connectStep st ev).
Proof.
  intros H. destruct (phase st) eqn:Hph.
  - rewrite connectStep_awaitingKeys by done.
    destruct ev; try done. by apply handshakePending_keysSettled.
  - rewrite connectStep_started by done. destruct ev; try done.
    + by apply handshakePending_headerSettled.
    + by apply handshakePending_connectAck.
    + by apply handshakePending_deltasSettled.
  - by rewrite connectStep_keysFailed.
Qed.

Lemma handshakePending_run evs : ∀ st,
  handshakePending st → handshakePending (connectRun st evs).
Proof.
  induction evs as [|ev evs IH]; simpl; [done|].
  intros st H. by apply IH, handshakePending_step.
Qed.

Lemma handshakePending_reachable id version connectFlag encrypted evs :
  handshakePending
    (connectRun (connect id version connectFlag encrypted) evs).
Proof. apply handshakePending_run, handshakePending_connect. Qed.




(** *** Connecting without a version *)

Ltac solve_calls :=
  intros;
  repeat match goal with
    | H : _ ∈ _ ++ _ |- _ => apply elem_of_app in H as [H|H]
    | H : _ ∈ _ :: _ |- _ => apply elem_of_cons in H as [H|H]
    | H : _ ∈ [] |- _ => by apply elem_of_nil in H
    | H : GetHeader _ _ ∈ ?l, H' : ∀ _ _, GetHeader _ _ ∉ ?l |- _ =>
        by destruct (H' _ _ H)
    | H : DeltaStorageGet _ _ ∈ ?l,
      H' : ∀ _ _, DeltaStorageGet _ _ ∈ ?l → _ |- _ =>
        apply H' in H as [? ?]
    | |- _ ∉ _ => intros ?
    | |- _ ∧ _ => split
    end;
  simplify_eq; rewrite ?elem_of_app, ?elem_of_cons; eauto 6.

Lemma defaultHeader_connect id connectFlag encrypted :
  defaultHeader id (connect id None connectFlag encrypted).
Proof.
  destruct encrypted; split; cbn; try done; try solve_calls.
Qed.

Lemma defaultHeader_keysSettled id keys st :
  phase st = AwaitingKeys →
  defaultHeader id st → defaultHeader id (keysSettled keys st).
Proof.
  intros Hph [[H1 H1'] H2 H3 H4 H5 H6].
  destruct st as [id' v enc ph hP cP dP r cs]. simpl in *. subst.
  destruct (H4 ltac:(done)) as [->|[e ->]];
    destruct keys as [[]|]; split; cbn; try done; try solve_calls.
Qed.

Ltac solve_document H :=
  let doc := fresh "doc" in
  let Hd := fresh "Hd" in
  intros doc Hd;
  first
    [ destruct (H doc Hd) as (? & ? & ? & ? & ?); simplify_eq; eauto 10
    | simplify_eq; eauto 10 ].

Lemma defaultHeader_headerSettled id outcome st :
  phase st = Started →
  defaultHeader id st → defaultHeader id (headerSettled outcome st).
Proof.
  intros Hph H. unfold headerSettled.
  destruct (default_header _ _ H Hph) as [-> _]. done.
Qed.

Lemma defaultHeader_connectAck id error response st :
  phase st = Started →
  defaultHeader id st → defaultHeader id (connectAck error response st).
Proof.
  intros Hph [[H1 H1'] H2 H3 H4 H5 H6].
  destruct (H5 Hph) as [Hh Hget].
  destruct st as [id' v enc ph hP cP dP r cs]. simpl in *. subst.
  unfold connectAck. simpl. destruct cP; [|done..].
  destruct error, r, dP; split; cbn; try done; solve_document H6.
Qed.

Lemma defaultHeader_deltasSettled id outcome st :
  phase st = Started →
  defaultHeader id st → defaultHeader id (deltasSettled outcome st).
Proof.
  intros Hph [[H1 H1'] H2 H3 H4 H5 H6].
  destruct (H5 Hph) as [Hh Hget].
  destruct st as [id' v enc ph hP cP dP r cs]. simpl in *. subst.
  unfold deltasSettled, deltasOutstanding. simpl. destruct dP; [|done..].
  destruct outcome, r, cP; split; cbn; try done; solve_document H6.
Qed.

Lemma defaultHeader_step id st ev :
  defaultHeader id st → defaultHeader id (connectStep st ev).
Proof.
  intros H. destruct (phase st) eqn:Hph.
  - rewrite connectStep_awaitingKeys by done.
    destruct ev; try done. by apply defaultHeader_keysSettled.
  - rewrite connectStep_started by done. destruct ev; try done.
    + by apply defaultHeader_headerSettled.
    + by apply defaultHeader_connectAck.
    + by apply defaultHeader_deltasSettled.
  - by rewrite connectStep_keysFailed.
Qed.

Lemma defaultHeader_run id evs : ∀ st,
  defaultHeader id st → defaultHeader id (connectRun st evs).
Proof.
  induction evs as [|ev evs IH]; simpl; [done|].
  intros st H. by apply IH, defaultHeader_step.
Qed.

(** The deltas an invocation holds are those [deltaStorage.get] answered. *)
Lemma pendingDeltas_step st ev deltas :
  pendingDeltasP (connectStep st ev) = Resolved deltas →
  pendingDeltasP st = Resolved deltas ∨ ev = DeltasSettled (Ok deltas).
Proof.
  intros H. unfold connectStep in H.
  destruct (phase st), ev as [[[]|]|[|]|[]|[|]]; connect_cases; auto.
Qed.

Lemma pendingDeltas_run evs : ∀ st deltas,
  pendingDeltasP (connectRun st evs) = Resolved deltas →
  pendingDeltasP st = Resolved deltas ∨ DeltasSettled (Ok deltas) ∈ evs.
Proof.
  induction evs as [|ev evs IH]; simpl; [by left|].
  intros st deltas [H| H]%IH.
  - apply pendingDeltas_step in H as [H| ->]; [by left|right; left].
  - right. by right.
Qed.

(** Without a version and without encryption, the acknowledgement of the
    handshake and the answer of the delta storage are all that [connect]
    waits for. *)
Lemma connect_without_version_succeeds id connectFlag response deltas :
  ∃ doc,
    result (connectRun (connect id None connectFlag false)
              [ConnectAck None response; DeltasSettled (Ok deltas)])
    = Resolved doc
    ∧ pendingDeltas doc = deltas
    ∧ clientId doc = Connected.clientId response.
Proof. by eexists. Qed.



(** *** The calls of an invocation, in order *)

Lemma connectRun_snoc st evs ev :
  connectRun st (evs ++ [ev]) = connectStep (connectRun st evs) ev.
Proof. unfold connectRun. by rewrite foldl_app. Qed.

Lemma firstKeys_snoc evs ev :
  firstKeys (evs ++ [ev])
  = match firstKeys evs with
    | Some keys => Some keys
    | None => match ev with KeysSettled keys => Some keys | _ => None end
    end.
Proof.
  induction evs as [|ev' evs IH]; simpl; [by destruct ev|].
  by destruct ev'.
Qed.

Lemma keysFailed_run evs : ∀ st,
  phase st = KeysFailed → connectRun st evs = st.
Proof.
  induction evs as [|ev evs IH]; simpl; [done|].
  intros st H. rewrite connectStep_keysFailed by done. by apply IH.
Qed.

(** *** The calls of an invocation *)

Lemma protocol_connect id version connectFlag encrypted :
  protocol id version encrypted [] (connect id version connectFlag encrypted).
Proof. by destruct encrypted, version. Qed.

Ltac solve_protocol Hk :=
  split; simpl; unfold phaseAfter, keyPair, expectedCalls;
  rewrite ?firstKeys_snoc, ?Hk; simpl; rewrite <- ?app_assoc; done.

Lemma protocol_started id version encrypted evs st ev :
  phase st = Started →
  (encrypted = true → ∃ keys, firstKeys evs = Some (Ok keys)) →
  protocol id version encrypted evs st →
  protocol id version encrypted (evs ++ [ev]) (connectStep st ev).
Proof.
  intros Hph Hk [(H1 & H2 & H3) H4 H5].
  rewrite connectStep_started by done.
  assert (keyPair encrypted (evs ++ [ev]) = keyPair encrypted evs
          ∧ phaseAfter encrypted (evs ++ [ev]) = Started) as [Hkeys Hphase].
  { unfold keyPair, phaseAfter. rewrite firstKeys_snoc.
    destruct encrypted; [|done]. by destruct (Hk eq_refl) as [keys ->]. }
  destruct st as [id' v enc ph hP cP dP r cs]. simpl in *. subst.
  destruct (keyPair encrypted evs) as [[privateKey publicKey]|] eqn:Hpair.
  2: { unfold keyPair in Hpair. destruct encrypted; [|done].
       by destruct (Hk eq_refl) as [keys Hks]; rewrite Hks in Hpair. }
  clear Hk Hpair.
  destruct ev as [?|[h|e]|[e|] ?|[d|e]]; simpl.
  - split; simpl; by rewrite ?Hkeys, ?Hphase.
  - unfold headerSettled. simpl. destruct hP as [|h'|e']; simpl.
    + split; simpl; rewrite ?Hkeys, ?Hphase; try done.
      unfold expectedCalls. destruct h; by rewrite <- !app_assoc.
    + split; simpl; by rewrite ?Hkeys, ?Hphase.
    + split; simpl; by rewrite ?Hkeys, ?Hphase.
  - unfold headerSettled. simpl. destruct hP as [|h'|e']; simpl.
    + destruct r; split; simpl; by rewrite ?Hkeys, ?Hphase.
    + split; simpl; by rewrite ?Hkeys, ?Hphase.
    + split; simpl; by rewrite ?Hkeys, ?Hphase.
  - unfold connectAck. simpl.
    destruct cP, r; split; simpl; by rewrite ?Hkeys, ?Hphase.
  - unfold connectAck, allResolved. simpl.
    destruct cP, r, hP, dP; split; simpl; by rewrite ?Hkeys, ?Hphase.
  - unfold deltasSettled, deltasOutstanding, allResolved. simpl.
    destruct hP, dP, r, cP; split; simpl; by rewrite ?Hkeys, ?Hphase.
  - unfold deltasSettled, deltasOutstanding, oneRejected. simpl.
    destruct hP, dP, r; split; simpl; by rewrite ?Hkeys, ?Hphase.
Qed.

Lemma protocol_step id version encrypted evs st ev :
  protocol id version encrypted evs st →
  protocol id version encrypted (evs ++ [ev]) (connectStep st ev).
Proof.
  intros H. pose proof (protocol_phase _ _ _ _ _ H) as Hph.
  unfold phaseAfter in Hph.
  destruct encrypted; [destruct (firstKeys evs) as [[keys|e]|] eqn:Hk|].
  - apply protocol_started; eauto.
  - rewrite connectStep_keysFailed by done.
    destruct H as [H1 H2 H3]. split; [done|..].
    + unfold phaseAfter. by rewrite firstKeys_snoc, Hk.
    + unfold keyPair in *. rewrite firstKeys_snoc, Hk. by rewrite Hk in H3.
  - rewrite connectStep_awaitingKeys by done.
    destruct H as [(H1 & H2 & H3) H4 H5].
    destruct st as [id' v enc ph hP cP dP r cs]. simpl in *. subst.
    unfold keyPair, expectedCalls in *. rewrite Hk in *. simpl in *. subst.
    destruct ev as [[[privateKey publicKey]|e]|?|? ?|?];
      try solve_protocol Hk.
    destruct version; solve_protocol Hk.
  - apply protocol_started; [done|done|done].
Qed.

Lemma protocol_reachable id version connectFlag encrypted evs :
  protocol id version encrypted evs
    (connectRun (connect id version connectFlag encrypted) evs).
Proof.
  induction evs as [|ev evs IH] using rev_ind.
  - apply protocol_connect.
  - rewrite connectRun_snoc. by apply protocol_step.
Qed.

(** *** The join of the three branches *)

Ltac use_joined Hres Hrej Hpend :=
  try (destruct (Hres _ eq_refl) as (? & ? & ? & ? & ? & ? & ?); simplify_eq);
  try (destruct (Hrej _ eq_refl)
         as [?|[?|[?|[?|(? & ? & [? ?] & [? ?])]]]]; simplify_eq);
  try (destruct (Hpend eq_refl) as (? & ? & ? & ?)).

Ltac solve_joined :=
  first
    [ done
    | by eauto 10
    | split_and!; (done || by intros ?)
    | by left
    | by right; left
    | by right; right; left
    | by right; right; right; left
    | right; right; right; right; split_and!; by eauto ].

Lemma joined_connect id version connectFlag encrypted :
  joined (connect id version connectFlag encrypted).
Proof.
  destruct encrypted, version; split; cbn; intros; simplify_eq; solve_joined.
Qed.

Lemma joined_keysSettled keys st :
  phase st = AwaitingKeys → joined st → joined (keysSettled keys st).
Proof.
  intros Hph [Hres Hall Hrej Hpend Hwait Hdel].
  destruct Hwait as (Hh & Hc & Hd); [by rewrite Hph|].
  destruct st as [id v enc ph hP cP dP r cs]. simpl in *. subst.
  destruct keys as [[]|], v, r; split; cbn; intros; simplify_eq;
    use_joined Hres Hrej Hpend; solve_joined.
Qed.

Lemma joined_headerSettled outcome st :
  phase st = Started → joined st → joined (headerSettled outcome st).
Proof.
  intros Hph [Hres Hall Hrej Hpend Hwait Hdel].
  destruct st as [id v enc ph hP cP dP r cs]. simpl in *. subst.
  unfold headerSettled. simpl. destruct hP; [|done..]. subst.
  destruct outcome, r, cP; split; cbn; intros; simplify_eq;
    use_joined Hres Hrej Hpend; solve_joined.
Qed.

Lemma joined_connectAck error response st :
  phase st = Started → joined st → joined (connectAck error response st).
Proof.
  intros Hph [Hres Hall Hrej Hpend Hwait Hdel].
  destruct st as [id v enc ph hP cP dP r cs]. simpl in *. subst.
  unfold connectAck. simpl. destruct cP; [|done..].
  destruct error, r, hP as [|[]|], dP; simpl in Hdel; simplify_eq;
    split; cbn; intros; simplify_eq;
    use_joined Hres Hrej Hpend; solve_joined.
Qed.

Lemma joined_deltasSettled outcome st :
  phase st = Started → joined st → joined (deltasSettled outcome st).
Proof.
  intros Hph [Hres Hall Hrej Hpend Hwait Hdel].
  destruct st as [id v enc ph hP cP dP r cs]. simpl in *. subst.
  unfold deltasSettled, deltasOutstanding. simpl.
  destruct hP as [|header|]; [done| |done]. destruct dP; [|done..].
  destruct outcome, r, cP, header; split; cbn; intros; simplify_eq;
    use_joined Hres Hrej Hpend; solve_joined.
Qed.

Lemma joined_step st ev : joined st → joined (connectStep st ev).
Proof.
  intros H. destruct (phase st) eqn:Hph.
  - rewrite connectStep_awaitingKeys by done.
    destruct ev; try done. by apply joined_keysSettled.
  - rewrite connectStep_started by done. destruct ev; try done.
    + by apply joined_headerSettled.
    + by apply joined_connectAck.
    + by apply joined_deltasSettled.
  - by rewrite connectStep_keysFailed.
Qed.

Lemma joined_run evs : ∀ st, joined st → joined (connectRun st evs).
Proof.
  induction evs as [|ev evs IH]; simpl; [done|].
  intros st H. by apply IH, joined_step.
Qed.

Lemma joined_reachable id version connectFlag encrypted evs :
  joined (connectRun (connect id version connectFlag encrypted) evs).
Proof. apply joined_run, joined_connect. Qed.

Lemma started_of_headerP st :
  joined st → headerP st ≠ Pending → phase st = Started.
Proof.
  intros Hj Hh. destruct (phase st) eqn:E; [|done|];
    destruct (joined_waiting _ Hj) as (Hh' & _); by rewrite ?E.
Qed.

(** *** Where the values of the branches come from *)

Lemma connectionP_step_from st ev connection :
  connectionP (connectStep st ev) = Resolved connection →
  connectionP st = Resolved connection ∨ ev = ConnectAck None connection.
Proof.
  intros H. unfold connectStep in H.
  destruct (phase st), ev as [[[]|]|[|]|[] ?|[|]]; connect_cases;
    first [by auto|left; congruence].
Qed.

Lemma connectionP_run_from evs : ∀ st connection,
  connectionP (connectRun st evs) = Resolved connection →
  connectionP st = Resolved connection ∨ ConnectAck None connection ∈ evs.
Proof.
  induction evs as [|ev evs IH]; simpl; [by left|].
  intros st connection [H|H]%IH.
  - apply connectionP_step_from in H as [H| ->]; [by left|right; left].
  - right. by right.
Qed.

Lemma argVersion_step st ev : argVersion (connectStep st ev) = argVersion st.
Proof.
  unfold connectStep.
  destruct (phase st), ev as [[[]|]|[|]|[] ?|[|]]; connect_cases;
    first [by auto|left; congruence].
Qed.

Lemma headerP_step_from st ev header :
  headerP (connectStep st ev) = Resolved header →
  headerP st = Resolved header
  ∨ ev = HeaderSettled (Ok header)
  ∨ (argVersion st = None ∧ header = Some emptyHeader).
Proof.
  intros H. unfold connectStep in H.
  destruct (phase st), ev as [[[]|]|[|]|[] ?|[|]]; connect_cases;
    first [by auto|left; congruence].
Qed.

Lemma headerP_run_from evs : ∀ st header,
  headerP (connectRun st evs) = Resolved header →
  headerP st = Resolved header
  ∨ HeaderSettled (Ok header) ∈ evs
  ∨ (argVersion st = None ∧ header = Some emptyHeader).
Proof.
  induction evs as [|ev evs IH]; simpl; [by left|].
  intros st header [H|[H|H]]%IH.
  - apply headerP_step_from in H as [H|[->|H]]; [by left| |by right; right].
    right; left; left.
  - right; left. by right.
  - rewrite argVersion_step in H. by right; right.
Qed.

(** X8. The calls [connect] makes on its collaborators, and their order,
    are fixed by its arguments and by what has been answered so far: an
    encrypted connection first asks for a key pair and does nothing more
    until the keys arrive; then a header is requested if a version was
    given, the handshake is sent once, with the id, the flag and the keys
    (empty strings when the connection is not encrypted), and the deltas are
    requested once, after the header has arrived, from its sequence number
    (from 0 when the header is [null]).  Nothing else is ever called. *)
Theorem connect_calls_in_statement_order id version connectFlag encrypted evs :
  let st := connectRun (connect id version connectFlag encrypted) evs in
  phase st = phaseAfter encrypted evs
  ∧ calls st
    = expectedCalls id version encrypted (keyPair encrypted evs) (headerP st).
Proof.
  intros st.
  destruct (protocol_reachable id version connectFlag encrypted evs)
    as [_ H1 H2].
  by split.
Qed.

(** X9. When the generation of the keys fails, [connect] fails with the
    error of the generation and stops: no header is requested, no handshake
    is sent, no deltas are requested, and whatever arrives later changes
    nothing. *)
Theorem key_generation_failure_aborts_connect
    id version connectFlag error evs :
  let st :=
    connectRun (connect id version connectFlag true)
      (KeysSettled (Err error) :: evs) in
  result st = Rejected error
  ∧ calls st = [GenerateAsymmetricKeys 2048 "" id]
  ∧ headerP st = Pending ∧ connectionP st = Pending
  ∧ pendingDeltasP st = Pending.
Proof.
  intros st. unfold st. simpl. by rewrite keysFailed_run.
Qed.

(** X10. [connect] returns a document exactly when all of its three
    branches are resolved and the header is not [null], and the document is
    then the one assembled from the three values, whatever the order in
    which they arrived.  It fails only when the key generation failed, when
    one of the branches is rejected, with the error of that branch, or when
    all three are resolved and the header is [null].  As long as it has
    neither returned nor failed, no branch is rejected. *)
Theorem connect_returns_document_iff_all_branches_resolve
    id version connectFlag encrypted evs :
  let st := connectRun (connect id version connectFlag encrypted) evs in
  (∀ doc,
     result st = Resolved doc
     ↔ ∃ header connection deltas,
         headerP st = Resolved (Some header)
         ∧ connectionP st = Resolved connection
         ∧ pendingDeltasP st = Resolved deltas
         ∧ assemble st (Some header) connection deltas = Resolved doc)
  ∧ (∀ e,
       result st = Rejected e →
       phase st = KeysFailed
       ∨ headerP st = Rejected e
       ∨ connectionP st = Rejected e
       ∨ pendingDeltasP st = Rejected e
       ∨ (e = "TypeError" ∧ headerP st = Resolved None
          ∧ (∃ connection, connectionP st = Resolved connection)
          ∧ (∃ deltas, pendingDeltasP st = Resolved deltas)))
  ∧ (result st = Pending →
     (∀ e, headerP st ≠ Rejected e)
     ∧ (∀ e, connectionP st ≠ Rejected e)
     ∧ (∀ e, pendingDeltasP st ≠ Rejected e)
     ∧ (headerP st = Pending ∨ connectionP st = Pending
        ∨ pendingDeltasP st = Pending)).
Proof.
  intros st.
  pose proof (joined_reachable id version connectFlag encrypted evs) as H.
  fold st in H. split_and!.
  - intros doc. split; [apply (joined_resolved _ H)|].
    intros (header & connection & deltas & Hh & Hc & Hd & <-).
    by apply (joined_all _ H).
  - apply (joined_rejected _ H).
  - intros Hr. destruct (joined_pending _ H Hr) as (_ & Hh & Hc & Hd).
    split_and!; try done.
    destruct (headerP st) as [|header|e] eqn:Eh; [by left| |by destruct (Hh e)].
    destruct (connectionP st) as [|connection|e] eqn:Ec;
      [by right; left| |by destruct (Hc e)].
    destruct (pendingDeltasP st) as [|deltas|e] eqn:Ed;
      [by right; right| |by destruct (Hd e)].
    rewrite (joined_all _ H header connection deltas) in Hr by done.
    by destruct header.
Qed.

(** X11. Every field of a returned document comes from the arguments of
    [connect] or from what its collaborators answered: the client id, the
    [existing] flag and the keys of the delta connection from the
    acknowledgement of the handshake, the pending deltas from the answer of
    the delta storage, and the rest from the header, which is the default
    header when no version was given and the answer of the blob storage
    otherwise.  The deltas were requested from the sequence number the
    document carries. *)
Theorem document_is_assembled_from_the_answers
    id version connectFlag encrypted evs doc :
  let st := connectRun (connect id version connectFlag encrypted) evs in
  result st = Resolved doc →
  ∃ header connection,
    match version with
    | Some _ => HeaderSettled (Ok (Some header)) ∈ evs
    | None => header = emptyHeader
    end
    ∧ ConnectAck None connection ∈ evs
    ∧ DeltasSettled (Ok (pendingDeltas doc)) ∈ evs
    ∧ DeltaStorageGet id (sequenceNumber doc) ∈ calls st
    ∧ documentId doc = id
    ∧ clientId doc = Connected.clientId connection
    ∧ existing doc = Connected.existing connection
    ∧ DocumentService.version doc = version
    ∧ deltaConnection doc
      = {| DeltaConnection.documentId := id;
           DeltaConnection.clientId := Connected.clientId connection;
           DeltaConnection.encrypted := encrypted;
           DeltaConnection.privateKey := Connected.privateKey connection;
           DeltaConnection.publicKey := Connected.publicKey connection |}
    ∧ documentStorageService doc = (id, version)
    ∧ deltaStorageService doc = id
    ∧ distributedObjects doc = Header.distributedObjects header
    ∧ transformedMessages doc = Header.transformedMessages header
    ∧ sequenceNumber doc = Header.sequenceNumber (Header.attributes header)
    ∧ minimumSequenceNumber doc
      = Header.minimumSequenceNumber (Header.attributes header)
    ∧ tree doc = Header.tree header.
Proof.
  intros st Hdoc.
  pose proof (joined_reachable id version connectFlag encrypted evs) as Hj.
  destruct (protocol_reachable id version connectFlag encrypted evs)
    as [(Hid & Hv & Henc) Hph Hcalls].
  fold st in Hj, Hid, Hv, Henc, Hph, Hcalls.
  destruct (joined_resolved _ Hj doc Hdoc)
    as (header & connection & deltas & Hh & Hc & Hd & Hasm).
  assert (phase st = Started) as Hst.
  { apply started_of_headerP; [done|]. by rewrite Hh. }
  exists header, connection.
  simpl in Hasm. injection Hasm as <-. simpl.
  rewrite Hid, Hv, Henc. split_and!; try done.
  - pose proof Hh as Hfrom.
    apply headerP_run_from in Hfrom as [Hfrom|[Hfrom|[Hh1 Hh2]]].
    + destruct encrypted, version; simplify_eq/=; done.
    + destruct version; [done|].
      pose proof (default_header id st
                    (defaultHeader_run id evs _
                       (defaultHeader_connect id connectFlag encrypted))
                    Hst) as [Hh' _].
      fold st in Hh'. congruence.
    + destruct encrypted, version; simplify_eq/=; done.
  - apply connectionP_run_from in Hc as [Hc|Hc]; [|done].
    by destruct encrypted, version.
  - apply pendingDeltas_run in Hd as [Hd|Hd]; [|done].
    by destruct encrypted, version.
  - rewrite Hcalls, Hh. unfold expectedCalls, keyPair, phaseAfter in *.
    destruct encrypted.
    + destruct (firstKeys evs) as [[[privateKey publicKey]|e]|]; [|congruence..].
      rewrite !elem_of_app, !elem_of_cons. auto 10.
    + rewrite !elem_of_app, !elem_of_cons. auto 10.
Qed.

(** X12. A header that is [null] is provided for when the deltas are
    requested, which then start at 0, but not when the document is built:
    with such a header [connect] never returns a document, and it fails with
    a [TypeError] once the handshake and the deltas have succeeded. *)
Theorem null_header_never_yields_a_document
    id version connectFlag encrypted evs :
  let st := connectRun (connect id version connectFlag encrypted) evs in
  headerP st = Resolved None →
  DeltaStorageGet id 0 ∈ calls st
  ∧ (∀ doc, result st ≠ Resolved doc)
  ∧ (∀ connection deltas,
       connectionP st = Resolved connection →
       pendingDeltasP st = Resolved deltas →
       result st = Rejected "TypeError").
Proof.
  intros st Hh.
  pose proof (joined_reachable id version connectFlag encrypted evs) as Hj.
  destruct (protocol_reachable id version connectFlag encrypted evs)
    as [_ Hph Hcalls].
  fold st in Hj, Hph, Hcalls. split_and!.
  - assert (phase st = Started) as Hst.
    { apply started_of_headerP; [done|]. by rewrite Hh. }
    rewrite Hcalls, Hh. unfold expectedCalls, keyPair, phaseAfter in *.
    destruct encrypted.
    + destruct (firstKeys evs) as [[[privateKey publicKey]|e]|]; [|congruence..].
      rewrite !elem_of_app, !elem_of_cons. auto 10.
    + rewrite !elem_of_app, !elem_of_cons. auto 10.
  - intros doc Hdoc.
    destruct (joined_resolved _ Hj doc Hdoc) as (? & ? & ? & ? & _).
    congruence.
  - intros connection deltas Hc Hd.
    by rewrite (joined_all _ Hj None connection deltas).
Qed.

Lemma document_is_assembled_from_the_answers_witness :
  let header :=
    {| Header.attributes :=
         {| Header.minimumSequenceNumber := 3; Header.sequenceNumber := 7 |};
       Header.distributedObjects := ["root"];
       Header.transformedMessages := [];
       Header.tree := None |} in
  let response :=
    {| Connected.clientId := "client-1"; Connected.existing := true;
       Connected.privateKey := "k1"; Connected.publicKey := "k2" |} in
  let st :=
    connectRun (connect "doc" (Some {| sha := "v1" |}) true true)
      [KeysSettled (Ok ("priv", "pub")); ConnectAck None response;
       HeaderSettled (Ok (Some header)); DeltasSettled (Ok ["op8"])] in
  ∃ doc, result st = Resolved doc
         ∧ DeltaStorageGet "doc" (sequenceNumber doc) ∈ calls st
         ∧ documentId doc = "doc"
         ∧ documentStorageService doc = ("doc", Some {| sha := "v1" |}).
Proof.
  intros header response st.
  assert (∃ doc, result st = Resolved doc) as [doc Hdoc]
    by (eexists; vm_compute; reflexivity).
  exists doc. split; [exact Hdoc|].
  destruct (document_is_assembled_from_the_answers
              "doc" (Some {| sha := "v1" |}) true true
              [KeysSettled (Ok ("priv", "pub")); ConnectAck None response;
               HeaderSettled (Ok (Some header)); DeltasSettled (Ok ["op8"])]
              doc Hdoc)
    as (h & c & _ & _ & _ & H1 & H2 & _ & _ & _ & _ & H3 & _).
  split_and!; [exact H1|exact H2|exact H3].
Defined.

Lemma null_header_never_yields_a_document_witness :
  let response :=
    {| Connected.clientId := "client-1"; Connected.existing := true;
       Connected.privateKey := ""; Connected.publicKey := "" |} in
  let st :=
    connectRun (connect "doc" (Some {| sha := "v1" |}) true false)
      [HeaderSettled (Ok None); ConnectAck None response;
       DeltasSettled (Ok ["op1"])] in
  DeltaStorageGet "doc" 0 ∈ calls st ∧ result st = Rejected "TypeError".
Proof.
  intros response st.
  destruct (null_header_never_yields_a_document
              "doc" (Some {| sha := "v1" |}) true false
              [HeaderSettled (Ok None); ConnectAck None response;
               DeltasSettled (Ok ["op1"])] eq_refl)
    as (H1 & _ & H3).
  split; [exact H1|exact (H3 response ["op1"] eq_refl eq_refl)].
Defined.

End ConnectFacts.
